(** * Acoustic head tracking: the filter pipeline and the callback controller

    A shallow embedding of [turn_head_to_source.py]: the temporal median
    filter, the down-sample buffer, the mode selection, the polar to
    Cartesian conversion and the [Follower] controller with its lock.

    Numbers.  The angles, the filter values and the coordinates are
    Python/NumPy floats: binary64 values, modelled by the IEEE 754
    specification of the standard library ([spec_float] with precision 53
    and maximal exponent 1024: signed zeros, infinities, nan and the
    finite values, with round-to-nearest-even arithmetic).  NumPy integer
    arrays hold 64-bit integers and are lists of [Z]; the conversion to
    them is the one place where the width shows.  The cosine and the sine
    of NumPy are library functions on binary64 and are taken as they
    come: the controller is stated over any two functions [np_cos] and
    [np_sin]. *)

From Stdlib Require Import List Bool Arith ZArith QArith Lia.
From Stdlib Require Import Permutation Sorted.
From Stdlib Require Import SpecFloat.
Import ListNotations.

Local Open Scope nat_scope.

(** ** Module constants *)

(** temporal median filter length *)
Definition FILTER_LENGTH : nat := 20.
(** down-sample buffer length *)
Definition BUFFER_LENGTH : nat := 30.

(** ** Exceptions

    A Python exception ends the computation: [None].  *)

Definition bind {A B : Type} (c : option A) (k : A -> option B) : option B :=
  match c with
  | Some a => k a
  | None => None
  end.

Notation "x <- c ;; k" := (bind c (fun x => k))
  (at level 61, c at next level, right associativity).

(** ** Binary64 *)

Abbreviation float := spec_float.

Module F64.

Abbreviation t := spec_float.

Definition prec : Z := 53.
Definition emax : Z := 1024.

Definition add : t -> t -> t := SFadd prec emax.
Definition mul : t -> t -> t := SFmul prec emax.
Definition div : t -> t -> t := SFdiv prec emax.

Definition leb : t -> t -> bool := SFleb.

Definition nan : t := S754_nan.
Definition zero : t := S754_zero false.

Definition isnan (f : t) : bool :=
  match f with
  | S754_nan => true
  | _ => false
  end.

(** The binary64 value nearest to [m * 2^e]; [dyadic 3 (-1)] is 1.5. *)
Definition dyadic (m e : Z) : t := binary_normalize prec emax m e false.

(** The conversion of an integer: exact up to 2^53 in size. *)
Definition of_int (z : Z) : t := dyadic z 0.

(** The rational number a zero or a finite value stands for. *)
Definition value (f : t) : option Q :=
  match f with
  | S754_zero _ => Some 0%Q
  | S754_finite s m e =>
      let n := cond_Zopp s (Z.pos m) in
      Some (match e with
            | Z.neg k => Qmake n (Pos.shiftl 1 (N.pos k))
            | _ => Qmake (n * 2 ^ e) 1
            end)
  | _ => None
  end.

(** The place of a value in the order of the binary64 values, nan after
    all the others (two zeros share a place): the sign class first, then
    exponent and mantissa. *)
Definition rank (f : t) : Z * Z * Z :=
  match f with
  | S754_infinity true => (-2, 0, 0)%Z
  | S754_finite true m e => (-1, - e, - Z.pos m)%Z
  | S754_zero _ => (0, 0, 0)%Z
  | S754_finite false m e => (1, e, Z.pos m)%Z
  | S754_infinity false => (2, 0, 0)%Z
  | S754_nan => (3, 0, 0)%Z
  end.

Definition rank_le (a b : Z * Z * Z) : Prop :=
  let '(a1, a2, a3) := a in
  let '(b1, b2, b3) := b in
  (a1 < b1 \/ (a1 = b1 /\ (a2 < b2 \/ (a2 = b2 /\ a3 <= b3))))%Z.

Definition rank_lt (a b : Z * Z * Z) : Prop :=
  let '(a1, a2, a3) := a in
  let '(b1, b2, b3) := b in
  (a1 < b1 \/ (a1 = b1 /\ (a2 < b2 \/ (a2 = b2 /\ a3 < b3))))%Z.

End F64.

(** ** The NumPy operations the program calls *)

Module Np.

(** [np.pi], 3.141592653589793 *)
Definition pi : float := S754_finite false 7074237752028440 (-51).

(** [np.zeros(n)] *)
Definition zeros (n : nat) : list float := repeat F64.zero n.

(** [a.size] *)
Definition size {A : Type} (a : list A) : nat := length a.

(** [np.hstack((v, a))] for a scalar [v] and a one-dimensional [a]. *)
Definition hstack {A : Type} (v : A) (a : list A) : list A := v :: a.

(** [np.roll(a, 1)]: every element moves one place to the right and the
    last one comes round to index 0. *)
Definition roll1 {A : Type} (a : list A) : list A :=
  match rev a with
  | [] => []
  | lst :: front => lst :: rev front
  end.

(** [a[0] = v]; an [IndexError] on an array of size 0. *)
Definition setitem0 {A : Type} (a : list A) (v : A) : option (list A) :=
  match a with
  | [] => None
  | _ :: rest => Some (v :: rest)
  end.

(** The order NumPy sorts floats in: [<=] on the numbers, nan after
    everything. *)
Definition le (a b : float) : bool := F64.leb a b || F64.isnan b.

(** The data in that order. *)
Fixpoint insert (x : float) (s : list float) : list float :=
  match s with
  | [] => [x]
  | y :: rest => if le x y then x :: s else y :: insert x rest
  end.

Definition sort (a : list float) : list float := fold_right insert [] a.

(** [np.mean] of two values: their sum, halved, both in binary64. *)
Definition mean2 (a b : float) : float := F64.div (F64.add a b) (F64.of_int 2).

(** [np.median(a)]: nan when [a] holds a nan; otherwise the middle
    element of the data in order, or the mean of the two middle elements
    when the size is even.  On an array of size 0 the answer is nan.
    (Where the data holds zeros of both signs, the sign of a zero result
    is the one this order of the data gives.) *)
Definition median (a : list float) : float :=
  let s := sort a in
  let n := length a in
  if existsb F64.isnan a then F64.nan
  else if Nat.even n
       then mean2 (nth (n / 2 - 1) s F64.nan) (nth (n / 2) s F64.nan)
       else nth (n / 2) s F64.nan.

(** The least 64-bit integer. *)
Definition INT64_MIN : Z := (- 2 ^ 63)%Z.

(** [a.astype(int)] on one float: the conversion to a 64-bit integer,
    which drops the fractional part (rounds toward zero).  A value that
    does not fit, an infinity and nan have no integer; the conversion
    instruction of x86-64 then answers [INT64_MIN]. *)
Definition astype_int (f : float) : Z :=
  match F64.value f with
  | Some q =>
      let z := Z.quot (Qnum q) (Z.pos (Qden q)) in
      if ((INT64_MIN <=? z) && (z <? 2 ^ 63))%Z then z else INT64_MIN
  | None => INT64_MIN
  end.

(** [np.unique(a)]: the distinct values of [a] in increasing order. *)
Fixpoint insert_unique (x : Z) (u : list Z) : list Z :=
  match u with
  | [] => [x]
  | y :: rest =>
      if (x <? y)%Z then x :: u
      else if (x =? y)%Z then u
      else y :: insert_unique x rest
  end.

Definition unique (a : list Z) : list Z := fold_right insert_unique [] a.

(** The position of [x] in [u]. *)
Fixpoint index_of (x : Z) (u : list Z) : nat :=
  match u with
  | [] => 0
  | y :: rest => if (y =? x)%Z then 0 else S (index_of x rest)
  end.

(** [np.unique(a, return_inverse=True)]: the distinct values and, for
    every element of [a], its position among them. *)
Definition unique_inverse (a : list Z) : list Z * list nat :=
  let u := unique a in
  (u, map (fun x => index_of x u) a).

(** [np.bincount(idx)]: entry [i] counts the occurrences of [i] in
    [idx]; the result has [max(idx) + 1] entries, none for an empty
    [idx]. *)
Definition bincount (idx : list nat) : list nat :=
  match idx with
  | [] => []
  | _ :: _ => map (count_occ Nat.eq_dec idx) (seq 0 (S (list_max idx)))
  end.

(** [np.argmax(c)]: the first index that holds the maximum; a
    [ValueError] on an empty array.  [argmax_of x rest] is the first
    position of the maximum of [x :: rest], with that maximum. *)
Fixpoint argmax_of (x : nat) (rest : list nat) : nat * nat :=
  match rest with
  | [] => (0, x)
  | y :: rest' =>
      let (i, v) := argmax_of y rest' in
      if v <=? x then (0, x) else (S i, v)
  end.

Definition argmax (c : list nat) : option nat :=
  match c with
  | [] => None
  | x :: rest => Some (fst (argmax_of x rest))
  end.

End Np.

(** ** The temporal median filter *)

Definition TemporalMedian (new_value : float) (history : list float) (length : nat)
  : option (float * list float) :=
  if Np.size history =? 0 then
    let history := Np.hstack new_value history in
    let m := Np.median history in
    Some (m, history)
  else if Np.size history <? length then
    let history := Np.hstack new_value history in
    let m := Np.median history in
    Some (m, history)
  else
    let history := Np.roll1 history in
    history <- Np.setitem0 history new_value ;;
    let m := Np.median history in
    Some (m, history).

(** Pushing a whole sequence of values, oldest first; the result is the
    list of returned medians together with the final history. *)
Fixpoint push_all (values : list float) (history : list float) (length : nat)
  : option (list float * list float) :=
  match values with
  | [] => Some ([], history)
  | v :: rest =>
      r <- TemporalMedian v history length ;;
      r' <- push_all rest (snd r) length ;;
      Some (fst r :: fst r', snd r')
  end.





(** Equality of two binary64 values as data: the two zeros differ. *)
Definition float_eq_dec (a b : float) : {a = b} + {a <> b}.
Proof.
  decide equality; (apply Bool.bool_dec || apply Z.eq_dec || apply Pos.eq_dec).
Defined.

(** How many entries of [w] are the value [v]. *)
Definition occurrences (v : float) (w : list float) : nat :=
  count_occ float_eq_dec w v.

(** ** The down-sample buffer and its mode *)

Definition DownSample (new_value : float) (buf : list float) : option (list float) :=
  let buf := Np.roll1 buf in
  Np.setitem0 buf new_value.

Definition GetMode (buf : list Z) : option Z :=
  let (u, indices) := Np.unique_inverse buf in
  i <- Np.argmax (Np.bincount indices) ;;
  nth_error u i.

(** Pushing a whole sequence of values into the down-sample buffer,
    oldest first. *)
Fixpoint push_buffer (values : list float) (buf : list float)
  : option (list float) :=
  match values with
  | [] => Some buf
  | v :: rest =>
      b <- DownSample v buf ;;
      push_buffer rest b
  end.

(** ** Messages, points and effects *)

(** A [SoundSourceAngle] message. *)
Record Msg : Type := mkMsg {
  msg_angle : float;
  msg_is_valid : bool
}.

(** A [geometry_msgs] point. *)
Record Point : Type := mkPoint {
  point_x : float;
  point_y : float;
  point_z : float
}.

(** The mutable attributes of a [Follower]. *)
Record Follower : Type := mkFollower {
  angle : list float;
  buf : list float;
  counter : nat;
  ignore_inputs : bool;
  initializtion : bool
}.

(** What a callback does to its collaborators: the point published, the
    marker published (an arrow between two points), the goal sent to the
    action client with its target, and the result the wait for the
    actuator returned. *)
Inductive Event : Type :=
| PublishPoint (point : Point)
| PublishMarker (start_point end_point : Point)
| SendGoal (target : Point)
| WaitResult (result : bool).

(** The attributes [__init__] sets. *)
Definition Follower_init : Follower :=
  {| angle := Np.zeros 1;
     buf := Np.zeros BUFFER_LENGTH;
     counter := 0;
     ignore_inputs := false;
     initializtion := true |}.

Definition set_angle (self : Follower) (v : list float) : Follower :=
  {| angle := v; buf := buf self; counter := counter self;
     ignore_inputs := ignore_inputs self; initializtion := initializtion self |}.

Definition set_buf (self : Follower) (v : list float) : Follower :=
  {| angle := angle self; buf := v; counter := counter self;
     ignore_inputs := ignore_inputs self; initializtion := initializtion self |}.

Definition set_counter (self : Follower) (v : nat) : Follower :=
  {| angle := angle self; buf := buf self; counter := v;
     ignore_inputs := ignore_inputs self; initializtion := initializtion self |}.

Definition set_ignore_inputs (self : Follower) (v : bool) : Follower :=
  {| angle := angle self; buf := buf self; counter := counter self;
     ignore_inputs := v; initializtion := initializtion self |}.

Definition set_initializtion (self : Follower) (v : bool) : Follower :=
  {| angle := angle self; buf := buf self; counter := counter self;
     ignore_inputs := ignore_inputs self; initializtion := v |}.

(** The state [SetPointHead] leaves behind. *)
Definition after_commit : Follower :=
  {| angle := []; buf := Np.zeros BUFFER_LENGTH; counter := 0;
     ignore_inputs := false; initializtion := false |}.

(** The shape every state of the controller between two callbacks has. *)
Definition well_formed (self : Follower) : Prop :=
  length (buf self) = BUFFER_LENGTH /\
  counter self <= BUFFER_LENGTH /\
  ignore_inputs self = false /\
  length (angle self) <= FILTER_LENGTH.

Definition is_SendGoal (e : Event) : bool :=
  match e with
  | SendGoal _ => true
  | _ => false
  end.

(** The number of goals sent to the actuator. *)
Definition commits (evs : list Event) : nat := length (filter is_SendGoal evs).

(** The targets of the goals sent, in order. *)
Definition goals (evs : list Event) : list Point :=
  flat_map (fun e => match e with SendGoal p => [p] | _ => [] end) evs.

(** The number of messages marked valid. *)
Definition valid_messages (inputs : list (Msg * bool)) : nat :=
  length (filter (fun i => msg_is_valid (fst i)) inputs).

(** What a run is seen to do when the actuator results are left out. *)
Definition observe (r : option (Follower * list Event))
  : option (Follower * list Point) :=
  match r with
  | Some (self, evs) => Some (self, goals evs)
  | None => None
  end.

(** A list without its entry at place [i]. *)
Definition remove_nth {A : Type} (i : nat) (l : list A) : list A :=
  firstn i l ++ skipn (S i) l.

(** Two functions on binary64 to compute closed instances with, where
    the controller takes [np.cos] and [np.sin] as they come: the first
    keeps its argument, the second halves it. *)
Definition cos_sample (phi : float) : float := phi.
Definition sin_sample (phi : float) : float := F64.div phi (F64.of_int 2).

(** ** The controller *)

Section Controller.

(** [np.cos] and [np.sin] *)
Variables np_cos np_sin : float -> float.

(** ** The polar to Cartesian conversion *)

Definition PolToCart (rho phi : float) : float * float :=
  let x := F64.mul rho (np_cos phi) in
  let y := F64.mul rho (np_sin phi) in
  (x, y).

(** The point a commit builds from the voted direction:
    [(x, y) = PolToCart(3.0, (direction / 180.0) * np.pi)] and
    [point.point.z = 0.0]. *)
Definition goal_point (direction : Z) : Point :=
  let (x, y) :=
    PolToCart (F64.of_int 3)
              (F64.mul (F64.div (F64.of_int direction) (F64.of_int 180)) Np.pi) in
  {| point_x := x; point_y := y; point_z := F64.zero |}.

(** The start point of the marker. *)
Definition origin : Point :=
  {| point_x := F64.zero; point_y := F64.zero; point_z := F64.zero |}.

(** The effects of a commit to the direction [d], in order. *)
Definition is_commit (d : Z) (result : bool) : list Event :=
  [PublishPoint (goal_point d); PublishMarker origin (goal_point d);
   SendGoal (goal_point d); WaitResult result].

(** [SetPointHead] up to the blocking call: the flag is raised and the
    goal is sent.  (The point is stamped with the frame it is transformed
    to, and the transform to a point's own frame leaves it as it is.) *)
Definition SetPointHead_send (self : Follower) (point : Point)
  : Follower * list Event :=
  let corrected_point := point in
  let self := set_ignore_inputs self true in
  (self, [SendGoal corrected_point]).

(** [SetPointHead] from the return of [wait_for_result] on: the result is
    only logged, then the flag is cleared and the history array, the
    buffer array and the counter are set anew. *)
Definition SetPointHead_wait (self : Follower) (result : bool)
  : Follower * list Event :=
  let self := set_ignore_inputs self false in
  let self := set_angle self [] in
  let self := set_buf self (Np.zeros BUFFER_LENGTH) in
  let self := set_counter self 0 in
  (self, [WaitResult result]).

Definition SetPointHead (self : Follower) (point : Point) (result : bool)
  : Follower * list Event :=
  let (self, sent) := SetPointHead_send self point in
  let (self, waited) := SetPointHead_wait self result in
  (self, sent ++ waited).

(** One whole run of the callback, from [lock.acquire()] to
    [lock.release()].  [result] is what the actuator reports if this run
    commits.  (What the collaborators do with a point, a marker or a goal,
    and any failure of theirs, is outside the program.) *)
Definition AudioCallback (self : Follower) (msg : Msg) (result : bool)
  : option (Follower * list Event) :=
  if initializtion self then
    Some (set_initializtion self false, [])
  else if msg_is_valid msg && negb (ignore_inputs self) then
    r <- TemporalMedian (msg_angle msg) (angle self) FILTER_LENGTH ;;
    let (direction, history) := r in
    let self := set_angle self history in
    b <- DownSample direction (buf self) ;;
    let self := set_buf self b in
    if counter self =? BUFFER_LENGTH then
      (* [counter = 0] binds a local name and changes nothing *)
      let ints := map Np.astype_int (buf self) in
      let self := set_buf self (map F64.of_int ints) in
      direction <- GetMode ints ;;
      let (x, y) :=
        PolToCart (F64.of_int 3)
                  (F64.mul (F64.div (F64.of_int direction) (F64.of_int 180)) Np.pi) in
      let point := {| point_x := x; point_y := y; point_z := F64.zero |} in
      let start_point :=
        {| point_x := F64.zero; point_y := F64.zero; point_z := F64.zero |} in
      let end_point := {| point_x := x; point_y := y; point_z := F64.zero |} in
      let (self, done) := SetPointHead self point result in
      Some (self, PublishPoint point :: PublishMarker start_point end_point :: done)
    else
      Some (set_counter self (counter self + 1), [])
  else
    Some (self, []).

(** The callbacks of a run, one after the other; every message comes with
    the actuator result its callback would see. *)
Fixpoint run (self : Follower) (inputs : list (Msg * bool))
  : option (Follower * list Event) :=
  match inputs with
  | [] => Some (self, [])
  | (msg, result) :: rest =>
      r <- AudioCallback self msg result ;;
      r' <- run (fst r) rest ;;
      Some (fst r', snd r ++ snd r')
  end.

(** ** The callbacks under the lock

    Messages may arrive at any time; each starts a callback that first
    waits for the lock.  Which of several waiting callbacks gets a free
    lock is not determined.  A callback that holds the lock is seen from
    outside only while it is blocked in [wait_for_result]: every other
    stretch of its critical section ends by itself and is one step. *)

(** Where a callback stands after it has taken the lock and run as far as
    it can without waiting. *)
Inductive Progress : Type :=
| Released (self : Follower)
| Moving (self : Follower).

Definition AudioCallback_enter (self : Follower) (msg : Msg)
  : option (Progress * list Event) :=
  if initializtion self then
    Some (Released (set_initializtion self false), [])
  else if msg_is_valid msg && negb (ignore_inputs self) then
    r <- TemporalMedian (msg_angle msg) (angle self) FILTER_LENGTH ;;
    let (direction, history) := r in
    let self := set_angle self history in
    b <- DownSample direction (buf self) ;;
    let self := set_buf self b in
    if counter self =? BUFFER_LENGTH then
      let ints := map Np.astype_int (buf self) in
      let self := set_buf self (map F64.of_int ints) in
      direction <- GetMode ints ;;
      let (x, y) :=
        PolToCart (F64.of_int 3)
                  (F64.mul (F64.div (F64.of_int direction) (F64.of_int 180)) Np.pi) in
      let point := {| point_x := x; point_y := y; point_z := F64.zero |} in
      let start_point :=
        {| point_x := F64.zero; point_y := F64.zero; point_z := F64.zero |} in
      let end_point := {| point_x := x; point_y := y; point_z := F64.zero |} in
      let (self, sent) := SetPointHead_send self point in
      Some (Moving self,
            PublishPoint point :: PublishMarker start_point end_point :: sent)
    else
      Some (Released (set_counter self (counter self + 1)), [])
  else
    Some (Released self, []).

Record System : Type := mkSystem {
  follower : Follower;
  (** the lock is held: its holder is blocked in [wait_for_result] *)
  lock_held : bool;
  (** the messages whose callbacks wait in [lock.acquire()], oldest first *)
  waiting : list Msg;
  trace : list Event
}.

(** A message is delivered; the waiting callback at place [i] gets the
    lock; the wait for the actuator returns. *)
Inductive Label : Type :=
| Deliver (msg : Msg)
| Acquire (i : nat)
| ActuatorDone (result : bool).

(** [Raised]: the callback ends in an exception of the filter pipeline
    (the [IndexError] of [DownSample], the [ValueError] of [GetMode]). *)
Inductive Outcome : Type :=
| Next (s : System)
| Disabled
| Raised.

Definition System_init : System :=
  {| follower := Follower_init; lock_held := false; waiting := []; trace := [] |}.

Definition step (s : System) (l : Label) : Outcome :=
  match l with
  | Deliver msg =>
      Next {| follower := follower s; lock_held := lock_held s;
              waiting := waiting s ++ [msg]; trace := trace s |}
  | Acquire i =>
      if lock_held s then Disabled
      else
        match nth_error (waiting s) i with
        | None => Disabled
        | Some msg =>
            match AudioCallback_enter (follower s) msg with
            | None => Raised
            | Some (Released self, evs) =>
                Next {| follower := self; lock_held := false;
                        waiting := remove_nth i (waiting s);
                        trace := trace s ++ evs |}
            | Some (Moving self, evs) =>
                Next {| follower := self; lock_held := true;
                        waiting := remove_nth i (waiting s);
                        trace := trace s ++ evs |}
            end
        end
  | ActuatorDone result =>
      if lock_held s then
        let (self, evs) := SetPointHead_wait (follower s) result in
        Next {| follower := self; lock_held := false;
                waiting := waiting s; trace := trace s ++ evs |}
      else Disabled
  end.

Fixpoint exec (s : System) (ls : list Label) : Outcome :=
  match ls with
  | [] => Next s
  | l :: rest =>
      match step s l with
      | Next s' => exec s' rest
      | o => o
      end
  end.

(** ** States and effects the properties name *)

(** The flag is set exactly while the lock is held. *)
Definition flag_follows_lock (s : System) : Prop :=
  ignore_inputs (follower s) = lock_held s.

(** A message and its callback, when it gets the lock at once. *)
Definition handled (msg : Msg) : list Label := [Deliver msg; Acquire 0].

(** The messages a sequence of steps delivers, in order. *)
Fixpoint delivered (ls : list Label) : list Msg :=
  match ls with
  | [] => []
  | Deliver msg :: rest => msg :: delivered rest
  | _ :: rest => delivered rest
  end.

Definition is_Deliver (l : Label) : bool :=
  match l with
  | Deliver _ => true
  | _ => false
  end.

(** The state a sequence of steps from the start leads to (the start
    itself when a step cannot be taken). *)
Definition state_after (ls : list Label) : System :=
  match exec System_init ls with
  | Next s => s
  | _ => System_init
  end.

(** The state once a pending actuator call has returned [result]; the
    state itself when none is pending. *)
Definition settle (result : bool) (s : System) : System :=
  match step s (ActuatorDone result) with
  | Next s' => s'
  | _ => s
  end.

(** The state [s] is the one the callbacks of the messages [done], run
    one after the other in the order they got the lock, lead to; [msgs]
    are those messages and the ones still waiting.  A callback that holds
    the lock has run its message up to the wait for the actuator. *)
Definition serialized (msgs : list Msg) (s : System) : Prop :=
  if lock_held s then
    exists done m f0 t0 evs,
      Permutation msgs (map fst done ++ m :: waiting s) /\
      run Follower_init done = Some (f0, t0) /\
      AudioCallback_enter f0 m = Some (Moving (follower s), evs) /\
      trace s = t0 ++ evs
  else
    exists done,
      Permutation msgs (map fst done ++ waiting s) /\
      run Follower_init done = Some (follower s, trace s).

(** * Properties *)

Example median_odd :
  Np.median [F64.of_int 3; F64.of_int 1; F64.of_int 2] = F64.of_int 2.
Proof. reflexivity. Qed.

Example median_even :
  Np.median [F64.of_int 4; F64.of_int 1; F64.of_int 3; F64.of_int 2]
  = F64.dyadic 5 (-1).
Proof. reflexivity. Qed.

Example median_rounds :
  Np.median [F64.div (F64.of_int 1) (F64.of_int 10);
             F64.div (F64.of_int 2) (F64.of_int 10)]
  = S754_finite false 5404319552844596 (-55).
Proof. reflexivity. Qed.

Example median_overflows :
  Np.median [S754_finite false 9007199254740991 971;
             S754_finite false 9007199254740991 971]
  = S754_infinity false.
Proof. reflexivity. Qed.

Example mode_example : GetMode [10; 10; 20; 20; 5]%Z = Some 10%Z.
Proof. reflexivity. Qed.

(** ** Arrays *)

Lemma roll1_cons {A : Type} (a : list A) :
  a <> [] -> exists lst, Np.roll1 a = lst :: removelast a.
Proof.
  intros Ha. destruct (exists_last Ha) as [front [lst ->]].
  exists lst. unfold Np.roll1.
  rewrite rev_app_distr, removelast_last. simpl. now rewrite rev_involutive.
Qed.

Lemma setitem0_roll1 {A : Type} (a : list A) (v : A) :
  a <> [] -> Np.setitem0 (Np.roll1 a) v = Some (v :: removelast a).
Proof.
  intros Ha. destruct (roll1_cons a Ha) as [lst ->]. reflexivity.
Qed.

Lemma removelast_firstn_pred {A : Type} (a : list A) :
  removelast a = firstn (length a - 1) a.
Proof.
  induction a as [| x [| y r] IH]; try reflexivity.
  change (removelast (x :: y :: r)) with (x :: removelast (y :: r)).
  rewrite IH. simpl. now rewrite Nat.sub_0_r.
Qed.

Lemma length_removelast_cons {A : Type} (v : A) (a : list A) :
  a <> [] -> length (v :: removelast a) = length a.
Proof.
  intros Ha. destruct (exists_last Ha) as [front [lst ->]].
  rewrite removelast_last. simpl. rewrite length_app. simpl. lia.
Qed.

Lemma In_removelast {A : Type} (x : A) (l : list A) :
  In x (removelast l) -> In x l.
Proof.
  induction l as [| a [| b r] IH]; [tauto | simpl; tauto |].
  change (removelast (a :: b :: r)) with (a :: removelast (b :: r)).
  intros [-> | H]; [now left | right; exact (IH H)].
Qed.

Lemma firstn_app_firstn {A : Type} (l r : list A) :
  forall n m, n <= m -> firstn n (l ++ firstn m r) = firstn n (l ++ r).
Proof.
  induction l as [| a l IH]; intros n m Hnm.
  - simpl. rewrite firstn_firstn. now rewrite Nat.min_l.
  - destruct n as [| n]; [reflexivity |]. simpl. f_equal. apply IH. lia.
Qed.



(** ** The order of the binary64 values *)

Ltac by_compare :=
  repeat match goal with
         | |- context [Z.compare ?a ?b] => destruct (Z.compare_spec a b)
         | |- context [Pos.compare_cont Eq ?a ?b] =>
             change (Pos.compare_cont Eq a b) with (Pos.compare a b);
             destruct (Pos.compare_spec a b)
         end.

(** The order NumPy sorts in is the order of the ranks. *)
Lemma le_rank (a b : float) :
  Np.le a b = true <-> F64.rank_le (F64.rank a) (F64.rank b).
Proof.
  unfold Np.le, F64.leb, SFleb, SFcompare, F64.isnan, F64.rank, F64.rank_le.
  destruct a as [[|] | [|] | | [|] m1 e1], b as [[|] | [|] | | [|] m2 e2];
    cbn; try (split; [intros; lia | intros; reflexivity]);
    try (split; [discriminate | intros; lia]);
    by_compare; cbn; split; intros; try reflexivity; try discriminate; lia.
Qed.


Lemma le_total (a b : float) : Np.le a b = false -> Np.le b a = true.
Proof.
  intros H. apply le_rank.
  assert (Hn : ~ F64.rank_le (F64.rank a) (F64.rank b)).
  { intros Hle. apply le_rank in Hle. congruence. }
  revert Hn. unfold F64.rank_le.
  destruct (F64.rank a) as [[a1 a2] a3], (F64.rank b) as [[b1 b2] b3]. lia.
Qed.

Lemma le_refl (a : float) : Np.le a a = true.
Proof.
  apply le_rank. unfold F64.rank_le.
  destruct (F64.rank a) as [[a1 a2] a3]. lia.
Qed.

Lemma le_trans (a b c : float) :
  Np.le a b = true -> Np.le b c = true -> Np.le a c = true.
Proof.
  rewrite !le_rank. unfold F64.rank_le.
  destruct (F64.rank a) as [[a1 a2] a3], (F64.rank b) as [[b1 b2] b3],
    (F64.rank c) as [[c1 c2] c3]. lia.
Qed.


(** ** Sorting *)

Lemma insert_Permutation (x : float) (s : list float) :
  Permutation (Np.insert x s) (x :: s).
Proof.
  induction s as [| y s IH]; simpl; [reflexivity |].
  destruct (Np.le x y); [reflexivity |].
  rewrite IH. apply perm_swap.
Qed.

Lemma sort_Permutation (a : list float) : Permutation (Np.sort a) a.
Proof.
  induction a as [| x a IH]; simpl; [reflexivity |].
  rewrite insert_Permutation. now apply perm_skip.
Qed.

Lemma sort_length (a : list float) : length (Np.sort a) = length a.
Proof. apply Permutation_length, sort_Permutation. Qed.

Lemma insert_sorted (x : float) (s : list float) :
  StronglySorted (fun a b => Np.le a b = true) s ->
  StronglySorted (fun a b => Np.le a b = true) (Np.insert x s).
Proof.
  induction 1 as [| y s Hs IH Hy]; simpl.
  - repeat constructor.
  - destruct (Np.le x y) eqn:E.
    + constructor; [constructor; assumption |].
      constructor; [exact E |].
      eapply Forall_impl; [| exact Hy]. intros z Hz. cbv beta in *.
      exact (le_trans x y z E Hz).
    + constructor; [exact IH |].
      apply Forall_forall. intros z Hz.
      apply (Permutation_in _ (insert_Permutation x s)) in Hz.
      destruct Hz as [<- | Hz]; [exact (le_total x y E) |].
      rewrite Forall_forall in Hy. now apply Hy.
Qed.

Lemma sort_sorted (a : list float) :
  StronglySorted (fun x y => Np.le x y = true) (Np.sort a).
Proof.
  induction a as [| x a IH]; simpl; [constructor | now apply insert_sorted].
Qed.

Lemma StronglySorted_around (l1 l2 : list float) (x : float) :
  StronglySorted (fun a b => Np.le a b = true) (l1 ++ x :: l2) ->
  Forall (fun y => Np.le y x = true) l1 /\ Forall (fun y => Np.le x y = true) l2.
Proof.
  induction l1 as [| a l1 IH]; simpl; intros H.
  - inversion H; subst. split; [constructor | assumption].
  - inversion H as [| a' l' Hs Ha]; subst.
    destruct (IH Hs) as [H1 H2]. split; [| exact H2].
    constructor; [| exact H1].
    rewrite Forall_forall in Ha. apply Ha, in_elt.
Qed.

(** ** The median *)




Lemma median_nan (w : list float) :
  existsb F64.isnan w = true -> Np.median w = F64.nan.
Proof. intros H. unfold Np.median. cbv zeta. now rewrite H. Qed.


(** ** The median filter *)

(** The window a push leaves behind. *)
Lemma TemporalMedian_window (v : float) (h : list float) (n : nat) :
  0 < n -> length h <= n ->
  TemporalMedian v h n
  = Some (Np.median (firstn n (v :: h)), firstn n (v :: h)).
Proof.
  intros Hn Hh. unfold TemporalMedian, Np.size, Np.hstack.
  destruct (length h =? 0) eqn:E0.
  - apply Nat.eqb_eq in E0. destruct h; [| discriminate].
    rewrite firstn_all2 by (simpl; lia). reflexivity.
  - apply Nat.eqb_neq in E0.
    destruct (length h <? n) eqn:E1.
    + apply Nat.ltb_lt in E1.
      rewrite firstn_all2 by (simpl; lia). reflexivity.
    + apply Nat.ltb_ge in E1.
      assert (Hne : h <> []) by (destruct h; [simpl in E0; lia | discriminate]).
      rewrite setitem0_roll1 by exact Hne. simpl.
      assert (Hw : v :: removelast h = firstn n (v :: h)).
      { destruct n; [lia |]. simpl. f_equal.
        rewrite removelast_firstn_pred. f_equal. lia. }
      now rewrite Hw.
Qed.

Lemma TemporalMedian_total (v : float) (h : list float) (n : nat) :
  exists m h', TemporalMedian v h n = Some (m, h') /\
               (h = [] -> m = Np.median [v] /\ h' = [v]) /\
               (h <> [] -> n <= length h -> length h' = length h).
Proof.
  unfold TemporalMedian, Np.size, Np.hstack.
  destruct h as [| y r].
  - simpl. eexists _, [v]. repeat split; congruence.
  - cbn [length Nat.eqb].
    destruct (S (length r) <? n) eqn:E1.
    + eexists _, _. split; [reflexivity |]. apply Nat.ltb_lt in E1.
      split; [congruence | intros; lia].
    + rewrite setitem0_roll1 by discriminate. cbn [bind].
      eexists _, _. split; [reflexivity |].
      split; [congruence |]. intros _ _.
      now rewrite length_removelast_cons.
Qed.

Lemma TemporalMedian_shape (v : float) (h : list float) (n : nat) :
  exists h',
    TemporalMedian v h n = Some (Np.median h', h') /\
    h' = v :: (if (length h =? 0) || (length h <? n) then h else removelast h).
Proof.
  unfold TemporalMedian, Np.size, Np.hstack.
  destruct (length h =? 0) eqn:E0; cbn [orb].
  - eexists. split; reflexivity.
  - apply Nat.eqb_neq in E0.
    destruct (length h <? n).
    + eexists. split; reflexivity.
    + assert (Hne : h <> []) by (destruct h; [simpl in E0; lia | discriminate]).
      rewrite setitem0_roll1 by exact Hne. cbn [bind].
      eexists. split; reflexivity.
Qed.

Lemma push_all_window (n : nat) (xs h : list float) :
  0 < n -> length h <= n ->
  exists outs, push_all xs h n = Some (outs, firstn n (rev xs ++ h)).
Proof.
  intros Hn. revert h. induction xs as [| x xs IH]; intros h Hh.
  - exists []. simpl. now rewrite firstn_all2.
  - cbn [push_all]. rewrite TemporalMedian_window by assumption. cbn [bind snd fst].
    destruct (IH (firstn n (x :: h))) as [outs Houts].
    { rewrite length_firstn. lia. }
    rewrite Houts. cbn [bind snd fst]. eexists. f_equal. f_equal.
    simpl rev. rewrite <- app_assoc. simpl.
    apply firstn_app_firstn. lia.
Qed.

Lemma push_all_snoc (n : nat) (xs : list float) :
  forall (h0 : list float) (outs h : list float) (x m : float) (w : list float),
    push_all xs h0 n = Some (outs, h) ->
    TemporalMedian x h n = Some (m, w) ->
    push_all (xs ++ [x]) h0 n = Some (outs ++ [m], w).
Proof.
  induction xs as [| y ys IH]; intros h0 outs h x m w Hxs Hx.
  - simpl in Hxs. injection Hxs as <- <-.
    cbn [app push_all]. rewrite Hx. reflexivity.
  - cbn [app push_all] in *.
    destruct (TemporalMedian y h0 n) as [[m1 h1] |]; [| discriminate].
    cbn [bind fst snd] in *.
    destruct (push_all ys h1 n) as [[o2 h2] |] eqn:E2; [| discriminate].
    cbn [bind fst snd] in Hxs. injection Hxs as <- <-.
    rewrite (IH h1 o2 h2 x m w E2 Hx). reflexivity.
Qed.

Lemma push_all_length (n : nat) (xs : list float) :
  forall h outs h', push_all xs h n = Some (outs, h') -> length outs = length xs.
Proof.
  induction xs as [| x xs IH]; intros h outs h' H.
  - simpl in H. now injection H as <- <-.
  - cbn [push_all] in H.
    destruct (TemporalMedian x h n) as [[m1 h1] |]; [| discriminate].
    cbn [bind fst snd] in H.
    destruct (push_all xs h1 n) as [[o2 h2] |] eqn:E2; [| discriminate].
    cbn [bind fst snd] in H. injection H as <- <-.
    simpl. f_equal. exact (IH _ _ _ E2).
Qed.


(** ** The mode *)

Lemma insert_unique_In (x z : Z) (u : list Z) :
  In z (Np.insert_unique x u) <-> z = x \/ In z u.
Proof.
  induction u as [| y r IH]; simpl.
  - intuition.
  - destruct (x <? y)%Z eqn:E1; [simpl; intuition |].
    destruct (x =? y)%Z eqn:E2.
    + apply Z.eqb_eq in E2. subst. simpl. intuition.
    + simpl. rewrite IH. intuition.
Qed.

Lemma unique_In (z : Z) (a : list Z) : In z (Np.unique a) <-> In z a.
Proof.
  induction a as [| x a IH]; simpl; [tauto |].
  rewrite insert_unique_In, IH. intuition.
Qed.

Lemma insert_unique_sorted (x : Z) (u : list Z) :
  StronglySorted Z.lt u -> StronglySorted Z.lt (Np.insert_unique x u).
Proof.
  induction 1 as [| y r Hr IH Hy]; simpl.
  - repeat constructor.
  - destruct (x <? y)%Z eqn:E1.
    + apply Z.ltb_lt in E1. constructor; [constructor; assumption |].
      constructor; [exact E1 |].
      eapply Forall_impl; [| exact Hy]. intros; cbv beta in *; lia.
    + destruct (x =? y)%Z eqn:E2; [constructor; assumption |].
      apply Z.ltb_ge in E1. apply Z.eqb_neq in E2.
      constructor; [exact IH |].
      apply Forall_forall. intros z Hz. apply insert_unique_In in Hz.
      destruct Hz as [-> | Hz]; [lia |].
      rewrite Forall_forall in Hy. now apply Hy.
Qed.

Lemma unique_sorted (a : list Z) : StronglySorted Z.lt (Np.unique a).
Proof.
  induction a as [| x a IH]; simpl; [constructor | now apply insert_unique_sorted].
Qed.

Lemma sorted_nth_error_le (u : list Z) :
  StronglySorted Z.lt u ->
  forall i j a b, i <= j -> nth_error u i = Some a -> nth_error u j = Some b ->
                  (a <= b)%Z.
Proof.
  induction 1 as [| y r Hr IH Hy]; intros i j a b Hij Ha Hb.
  - destruct i; discriminate.
  - destruct i as [| i], j as [| j]; simpl in *; try lia.
    + injection Ha as <-. injection Hb as <-. lia.
    + injection Ha as <-. apply nth_error_In in Hb.
      rewrite Forall_forall in Hy. specialize (Hy _ Hb). lia.
    + apply (IH i j); [lia | assumption | assumption].
Qed.

Lemma index_of_nth_error (x : Z) (u : list Z) :
  In x u -> nth_error u (Np.index_of x u) = Some x.
Proof.
  induction u as [| y r IH]; simpl; [tauto |].
  intros Hx. destruct (y =? x)%Z eqn:E.
  - apply Z.eqb_eq in E. now subst.
  - apply Z.eqb_neq in E. simpl. apply IH. destruct Hx; [contradiction | assumption].
Qed.

Lemma count_occ_index_of (u a : list Z) (v : Z) :
  In v u -> (forall x, In x a -> In x u) ->
  count_occ Nat.eq_dec (map (fun x => Np.index_of x u) a) (Np.index_of v u)
  = count_occ Z.eq_dec a v.
Proof.
  intros Hv. induction a as [| x a IH]; intros Ha; [reflexivity |].
  simpl map. simpl count_occ.
  specialize (IH (fun z Hz => Ha z (or_intror Hz))).
  assert (Hx : In x u) by (apply Ha; now left).
  destruct (Z.eq_dec x v) as [-> | Hne].
  - destruct (Nat.eq_dec (Np.index_of v u) (Np.index_of v u)); [| contradiction].
    now rewrite IH.
  - destruct (Nat.eq_dec (Np.index_of x u) (Np.index_of v u)) as [E | E]; [| exact IH].
    exfalso. apply Hne.
    pose proof (index_of_nth_error x u Hx) as H1.
    pose proof (index_of_nth_error v u Hv) as H2.
    rewrite E in H1. congruence.
Qed.

Lemma argmax_of_spec (rest : list nat) :
  forall x, let c := x :: rest in
    let (i, v) := Np.argmax_of x rest in
    i < length c /\ nth i c 0 = v /\
    (forall j, j < length c -> nth j c 0 <= v) /\
    (forall j, j < i -> nth j c 0 < v).
Proof.
  induction rest as [| y rest IH]; intros x c; subst c.
  - simpl. repeat split; try lia.
    intros j Hj. replace j with 0 by lia. reflexivity.
  - cbn [Np.argmax_of]. specialize (IH y).
    destruct (Np.argmax_of y rest) as [i v]. cbv zeta in IH.
    destruct IH as (Hi & Hv & Hmax & Hfirst).
    destruct (v <=? x) eqn:E.
    + apply Nat.leb_le in E. repeat split; simpl; try lia.
      intros [| j] Hj; [lia |]. specialize (Hmax j). simpl in Hmax. lia.
    + apply Nat.leb_gt in E. repeat split.
      * simpl in *. lia.
      * exact Hv.
      * intros [| j] Hj; [simpl; lia |]. apply Hmax. simpl in *. lia.
      * intros [| j] Hj; [simpl; lia |]. apply Hfirst. lia.
Qed.

Lemma bincount_nth (idx : list nat) (j : nat) :
  idx <> [] -> j <= list_max idx ->
  length (Np.bincount idx) = S (list_max idx) /\
  nth j (Np.bincount idx) 0 = count_occ Nat.eq_dec idx j.
Proof.
  intros Hne Hj. unfold Np.bincount. destruct idx as [| k idx]; [contradiction |].
  split.
  - now rewrite length_map, length_seq.
  - rewrite (nth_indep _ 0 (count_occ Nat.eq_dec (k :: idx) 0))
      by (rewrite length_map, length_seq; lia).
    rewrite map_nth, seq_nth by lia. reflexivity.
Qed.

(** What [GetMode] returns on a non-empty array: a most frequent value,
    and the smallest of those. *)
Lemma GetMode_spec (buf : list Z) :
  buf <> [] ->
  exists m, GetMode buf = Some m /\ In m buf /\
    (forall v, count_occ Z.eq_dec buf v <= count_occ Z.eq_dec buf m) /\
    (forall v, count_occ Z.eq_dec buf v = count_occ Z.eq_dec buf m -> (m <= v)%Z).
Proof.
  intros Hne. unfold GetMode, Np.unique_inverse.
  set (u := Np.unique buf). set (idx := map (fun x => Np.index_of x u) buf).
  assert (Hidx : idx <> []) by (subst idx; destruct buf; [contradiction | discriminate]).
  assert (Hin : forall x, In x buf -> In x u) by (intros x Hx; now apply unique_In).
  assert (Hbound : forall v, In v buf -> Np.index_of v u <= list_max idx).
  { intros v Hv. assert (H := proj1 (list_max_le idx (list_max idx)) (le_n _)).
    rewrite Forall_forall in H. apply H. subst idx. apply in_map_iff. now exists v. }
  assert (Hcount : forall v, In v buf ->
            nth (Np.index_of v u) (Np.bincount idx) 0 = count_occ Z.eq_dec buf v).
  { intros v Hv. rewrite (proj2 (bincount_nth idx _ Hidx (Hbound v Hv))).
    apply count_occ_index_of; auto. }
  destruct (Np.bincount idx) as [| c0 crest] eqn:Ec.
  { exfalso. destruct idx; [contradiction | discriminate]. }
  cbn [Np.argmax bind].
  pose proof (argmax_of_spec crest c0) as Hspec. cbv zeta in Hspec.
  destruct (Np.argmax_of c0 crest) as [i best]. cbn [fst].
  destruct Hspec as (Hi & Hbest & Hmax & Hfirst).
  assert (Hlen : length (c0 :: crest) = S (list_max idx)).
  { rewrite <- Ec. apply (bincount_nth idx 0 Hidx). lia. }
  (* the winning index is the index of some element of [buf] *)
  assert (Hpos : 0 < nth i (c0 :: crest) 0).
  { destruct buf as [| b0 buf']; [contradiction |].
    assert (Hb0 : In b0 (b0 :: buf')) by now left.
    specialize (Hmax (Np.index_of b0 u)).
    rewrite (Hcount b0 Hb0) in Hmax.
    assert (0 < count_occ Z.eq_dec (b0 :: buf') b0) by now apply count_occ_In.
    specialize (Hbound b0 Hb0). rewrite Hbest. lia. }
  assert (Hi' : i <= list_max idx) by lia.
  rewrite <- Ec in Hpos. rewrite (proj2 (bincount_nth idx i Hidx Hi')) in Hpos.
  apply count_occ_In in Hpos. subst idx. apply in_map_iff in Hpos.
  destruct Hpos as (m & Hmi & Hm). subst i.
  exists m. split; [apply index_of_nth_error; auto |]. split; [exact Hm |].
  assert (Hbm : best = count_occ Z.eq_dec buf m) by (rewrite <- Hbest; now apply Hcount).
  split.
  - intros v. destruct (in_dec Z.eq_dec v buf) as [Hv | Hv].
    + rewrite <- (Hcount v Hv), <- Hbm. apply Hmax.
      rewrite Hlen. specialize (Hbound v Hv). lia.
    + apply (count_occ_not_In Z.eq_dec) in Hv. rewrite Hv. lia.
  - intros v Hv.
    assert (Hvin : In v buf).
    { apply (count_occ_In Z.eq_dec). rewrite Hv.
      now apply count_occ_In. }
    destruct (Nat.lt_ge_cases (Np.index_of v u) (Np.index_of m u)) as [Hlt | Hge].
    + specialize (Hfirst _ Hlt). rewrite (Hcount v Hvin) in Hfirst. lia.
    + apply (sorted_nth_error_le u (unique_sorted buf) _ _ m v Hge);
        apply index_of_nth_error; auto.
Qed.

(** C6.  Mode determinism and tie-break.  On every non-empty buffer
    content [GetMode] returns one value, a function of the content alone;
    that value occurs in the buffer at least as often as any other, and it
    is the smallest of the values that occur as often.  The mode of
    [10, 10, 20, 20, 5] is 10. *)
Theorem C6_mode_smallest_most_frequent :
  forall buf : list Z,
    buf <> [] ->
    exists m,
      GetMode buf = Some m /\
      In m buf /\
      (forall v, count_occ Z.eq_dec buf v <= count_occ Z.eq_dec buf m) /\
      (forall v, count_occ Z.eq_dec buf v = count_occ Z.eq_dec buf m -> (m <= v)%Z) /\
      (forall buf', buf' = buf -> GetMode buf' = Some m) /\
      GetMode [10; 10; 20; 20; 5]%Z = Some 10%Z.
Proof.
  intros buf Hne. destruct (GetMode_spec buf Hne) as (m & Hm & Hin & Hmax & Htie).
  exists m. repeat split; auto. intros buf' ->. exact Hm.
Qed.

Lemma C6_mode_witness :
  [10; 10; 20; 20; 5]%Z <> [] /\
  exists m,
    GetMode [10; 10; 20; 20; 5]%Z = Some m /\
    In m [10; 10; 20; 20; 5]%Z /\
    (forall v, count_occ Z.eq_dec [10; 10; 20; 20; 5]%Z v
               <= count_occ Z.eq_dec [10; 10; 20; 20; 5]%Z m) /\
    (forall v, count_occ Z.eq_dec [10; 10; 20; 20; 5]%Z v
               = count_occ Z.eq_dec [10; 10; 20; 20; 5]%Z m -> (m <= v)%Z) /\
    (forall buf', buf' = [10; 10; 20; 20; 5]%Z -> GetMode buf' = Some m) /\
    GetMode [10; 10; 20; 20; 5]%Z = Some 10%Z.
Proof.
  split; [discriminate |].
  apply (C6_mode_smallest_most_frequent [10; 10; 20; 20; 5]%Z). discriminate.
Defined.

(** ** The conversion to integers *)

Lemma quot_cut (n : Z) (d : positive) :
  let z := Z.quot n (Z.pos d) in
  ((0 <= n -> z * Z.pos d <= n < (z + 1) * Z.pos d /\ 0 <= z) /\
   (n <= 0 -> n <= z * Z.pos d < n + Z.pos d /\ z <= 0))%Z.
Proof.
  cbv zeta. pose proof (Z.quot_rem' n (Z.pos d)) as Hqr. split; intros Hn.
  - pose proof (Z.rem_bound_pos n (Z.pos d) Hn (Pos2Z.is_pos d)). nia.
  - pose proof (Z.rem_bound_pos_neg n (Z.pos d) (Pos2Z.is_pos d) Hn). nia.
Qed.

(** Within the 64-bit range the conversion cuts toward zero. *)
Lemma astype_int_cuts (f : float) (q : Q) :
  F64.value f = Some q ->
  (inject_Z Np.INT64_MIN <= q < inject_Z (2 ^ 63))%Q ->
  ((0 <= q)%Q ->
   (inject_Z (Np.astype_int f) <= q < inject_Z (Np.astype_int f) + 1)%Q) /\
  ((q <= 0)%Q ->
   (q <= inject_Z (Np.astype_int f) < q + 1)%Q).
Proof.
  intros Hv [Hlo Hhi]. unfold Np.astype_int. rewrite Hv. cbv zeta.
  destruct q as [n d]. cbn [Qnum Qden].
  unfold Np.INT64_MIN in *. set (K := (2 ^ 63)%Z) in *.
  assert (HK : (0 < K)%Z) by (subst K; reflexivity).
  unfold Qle, Qlt, Qplus, inject_Z in *. cbn [Qnum Qden] in *.
  destruct (quot_cut n d) as [Hpos Hneg]. cbv zeta in Hpos, Hneg.
  set (z := Z.quot n (Z.pos d)) in *.
  assert (Hin : ((- K <=? z) && (z <? K))%Z = true).
  { apply andb_true_iff. rewrite Z.leb_le, Z.ltb_lt.
    destruct (Z.le_ge_cases 0 n) as [Hn | Hn].
    - destruct (Hpos Hn) as [[H1 H2] H3]. nia.
    - destruct (Hneg ltac:(lia)) as [[H1 H2] H3]. nia. }
  rewrite Hin. split; intros Hq.
  - destruct (Hpos ltac:(lia)) as [[H1 H2] H3]. nia.
  - destruct (Hneg ltac:(lia)) as [[H1 H2] H3]. nia.
Qed.

(** Where there is no 64-bit integer to convert to, the answer is
    [INT64_MIN]. *)
Lemma astype_int_outside (f : float) :
  (F64.value f = None -> Np.astype_int f = Np.INT64_MIN) /\
  (forall q, F64.value f = Some q ->
             (inject_Z (2 ^ 63) <= q \/ q < inject_Z Np.INT64_MIN)%Q ->
             Np.astype_int f = Np.INT64_MIN).
Proof.
  unfold Np.astype_int. split.
  - intros ->. reflexivity.
  - intros q -> Hout. cbv zeta. destruct q as [n d]. cbn [Qnum Qden].
    unfold Np.INT64_MIN in *. set (K := (2 ^ 63)%Z) in *.
    assert (HK : (0 < K)%Z) by (subst K; reflexivity).
    unfold Qle, Qlt, inject_Z in Hout. cbn [Qnum Qden] in Hout.
    destruct (quot_cut n d) as [Hpos Hneg]. cbv zeta in Hpos, Hneg.
    set (z := Z.quot n (Z.pos d)) in *.
    destruct ((- K <=? z) && (z <? K))%Z eqn:Hin; [| reflexivity].
    apply andb_true_iff in Hin. rewrite Z.leb_le, Z.ltb_lt in Hin.
    destruct Hout as [Hout | Hout].
    + destruct (Hpos ltac:(nia)) as [[H1 H2] H3]. nia.
    + destruct (Hneg ltac:(nia)) as [[H1 H2] H3]. nia.
Qed.

(** ** One callback *)

(** Read the attributes of an updated [Follower]. *)
Tactic Notation "fields" :=
  unfold SetPointHead, SetPointHead_send, SetPointHead_wait,
    set_counter, set_buf, set_angle, set_ignore_inputs, set_initializtion;
  cbn [counter buf angle ignore_inputs initializtion app].
Tactic Notation "fields" "in" hyp(H) :=
  unfold SetPointHead, SetPointHead_send, SetPointHead_wait,
    set_counter, set_buf, set_angle, set_ignore_inputs, set_initializtion in H;
  cbn [counter buf angle ignore_inputs initializtion app] in H.

Lemma DownSample_cons (v : float) (b : list float) :
  b <> [] -> DownSample v b = Some (v :: removelast b).
Proof. intros Hb. unfold DownSample. now apply setitem0_roll1. Qed.

Lemma map_astype_int_nonempty (v : float) (b : list float) :
  map Np.astype_int (v :: b) <> [].
Proof. discriminate. Qed.

(** A valid message outside the initialization and the gate is filtered
    and pushed; the callback then either counts it or commits. *)
Lemma AudioCallback_processed (self : Follower) (msg : Msg) (result : bool) :
  initializtion self = false ->
  msg_is_valid msg = true ->
  ignore_inputs self = false ->
  buf self <> [] ->
  exists m h,
    TemporalMedian (msg_angle msg) (angle self) FILTER_LENGTH = Some (m, h) /\
    let b := m :: removelast (buf self) in
    (counter self <> BUFFER_LENGTH ->
     AudioCallback self msg result
     = Some ({| angle := h; buf := b; counter := counter self + 1;
                ignore_inputs := false; initializtion := false |}, [])) /\
    (counter self = BUFFER_LENGTH ->
     exists d, GetMode (map Np.astype_int b) = Some d /\
               AudioCallback self msg result
               = Some (after_commit, is_commit d result)).
Proof.
  intros Hinit Hvalid Hign Hbuf.
  destruct (TemporalMedian_total (msg_angle msg) (angle self) FILTER_LENGTH)
    as (m & h & Hm & _).
  exists m, h. split; [exact Hm |]. cbv zeta.
  unfold AudioCallback. rewrite Hinit, Hvalid, Hign, Hm. cbn [andb negb bind].
  cbn [set_angle buf]. rewrite (DownSample_cons m _ Hbuf). cbn [bind].
  fields. rewrite Hinit, Hign. split; intros Hc.
  - apply Nat.eqb_neq in Hc. now rewrite Hc.
  - destruct (GetMode_spec _ (map_astype_int_nonempty m (removelast (buf self))))
      as (d & Hd & _).
    exists d. split; [exact Hd |].
    apply Nat.eqb_eq in Hc. now rewrite Hc, Hd.
Qed.

(** A callback with an effect on the collaborators is a commit. *)
Lemma AudioCallback_commit_inv (self : Follower) (msg : Msg) (result : bool)
      (self' : Follower) (evs : list Event) :
  AudioCallback self msg result = Some (self', evs) ->
  evs <> [] ->
  initializtion self = false /\ msg_is_valid msg = true /\
  ignore_inputs self = false /\ counter self = BUFFER_LENGTH /\
  exists m h b d,
    TemporalMedian (msg_angle msg) (angle self) FILTER_LENGTH = Some (m, h) /\
    DownSample m (buf self) = Some b /\
    GetMode (map Np.astype_int b) = Some d /\
    self' = after_commit /\ evs = is_commit d result.
Proof.
  unfold AudioCallback. intros H Hevs.
  destruct (initializtion self) eqn:Hinit.
  { injection H as <- <-. contradiction. }
  destruct (msg_is_valid msg) eqn:Hvalid; cbn [andb] in H;
    [| injection H as <- <-; contradiction].
  destruct (ignore_inputs self) eqn:Hign; cbn [negb] in H;
    [injection H as <- <-; contradiction |].
  destruct (TemporalMedian (msg_angle msg) (angle self) FILTER_LENGTH)
    as [[m h] |] eqn:Hm; [| discriminate].
  cbn [bind set_angle buf] in H.
  destruct (DownSample m (buf self)) as [b |] eqn:Hb; [| discriminate].
  cbn [bind] in H. fields in H. rewrite Hinit in H.
  destruct (counter self =? BUFFER_LENGTH) eqn:Hc;
    [| injection H as <- <-; contradiction].
  destruct (GetMode (map Np.astype_int b)) as [d |] eqn:Hd; [| discriminate].
  cbn [bind] in H. injection H as <- <-.
  apply Nat.eqb_eq in Hc.
  repeat split; try reflexivity; try assumption.
  exists m, h, b, d. repeat split; assumption.
Qed.

Lemma In_SendGoal_nonempty (target : Point) (evs : list Event) :
  In (SendGoal target) evs -> evs <> [].
Proof. intros H ->. contradiction. Qed.

(** ** Runs without a commit *)

Lemma run_quiet (inputs : list (Msg * bool)) :
  forall self,
    initializtion self = false ->
    ignore_inputs self = false ->
    length (buf self) = BUFFER_LENGTH ->
    counter self + length inputs <= BUFFER_LENGTH ->
    exists self',
      run self inputs = Some (self', []) /\
      initializtion self' = false /\
      ignore_inputs self' = false /\
      length (buf self') = BUFFER_LENGTH /\
      (Forall (fun i => msg_is_valid (fst i) = true) inputs ->
       counter self' = counter self + length inputs).
Proof.
  induction inputs as [| [msg result] rest IH]; intros self Hinit Hign Hlen Hc.
  - exists self. simpl. repeat split; auto.
  - cbn [length] in Hc. cbn [run].
    assert (Hbuf : buf self <> []).
    { intros E. rewrite E in Hlen. discriminate. }
    destruct (msg_is_valid msg) eqn:Hvalid.
    + destruct (AudioCallback_processed self msg result Hinit Hvalid Hign Hbuf)
        as (m & h & _ & Hstep & _).
      rewrite Hstep by lia. cbn [bind fst snd].
      edestruct (IH {| angle := h; buf := m :: removelast (buf self);
                       counter := counter self + 1;
                       ignore_inputs := false; initializtion := false |})
        as (self' & Hrun & H1 & H2 & H3 & H4); try reflexivity.
      * cbn [buf]. rewrite length_removelast_cons; assumption.
      * cbn [counter]. lia.
      * rewrite Hrun. cbn [bind fst snd app]. exists self'.
        repeat split; auto. intros Hall. inversion Hall; subst.
        rewrite H4 by assumption. cbn [counter length]. lia.
    + assert (Hstep : AudioCallback self msg result = Some (self, [])).
      { unfold AudioCallback. now rewrite Hinit, Hvalid. }
      rewrite Hstep. cbn [bind fst snd].
      destruct (IH self Hinit Hign Hlen) as (self' & Hrun & H1 & H2 & H3 & H4);
        [lia |].
      rewrite Hrun. cbn [bind fst snd app]. exists self'.
      repeat split; auto. intros Hall. inversion Hall; subst.
      cbn [fst] in *. congruence.
Qed.

Lemma run_counter_bound (inputs : list (Msg * bool)) :
  forall self self' evs,
    run self inputs = Some (self', evs) ->
    counter self' <= counter self + length inputs.
Proof.
  induction inputs as [| [msg result] rest IH]; intros self self' evs Hrun.
  - simpl in Hrun. injection Hrun as <- <-. simpl. lia.
  - cbn [run] in Hrun.
    destruct (AudioCallback self msg result) as [[s1 e1] |] eqn:Hcb; [| discriminate].
    cbn [bind fst snd] in Hrun.
    destruct (run s1 rest) as [[s2 e2] |] eqn:Hrest; [| discriminate].
    cbn [bind fst snd] in Hrun. injection Hrun as <- <-.
    apply IH in Hrest. cbn [length].
    enough (counter s1 <= counter self + 1) by lia.
    destruct e1 as [| e e1].
    + revert Hcb. unfold AudioCallback.
      destruct (initializtion self); [intros [= <-]; simpl; lia |].
      destruct (msg_is_valid msg && negb (ignore_inputs self));
        [| intros [= <-]; lia].
      destruct (TemporalMedian _ _ _) as [[m h] |]; [| discriminate]. cbn [bind].
      destruct (DownSample _ _) as [b |]; [| discriminate]. cbn [bind]. fields.
      destruct (counter self =? BUFFER_LENGTH).
      * destruct (GetMode _); [| discriminate]. cbn [bind]. discriminate.
      * intros [= <-]. simpl. lia.
    + destruct (AudioCallback_commit_inv self msg result s1 (e :: e1) Hcb)
        as (_ & _ & _ & _ & _ & _ & _ & _ & _ & _ & _ & -> & _); [discriminate |].
      simpl. lia.
Qed.

(** What a run of valid messages without a commit leaves in the two
    arrays: the history is the one [push_all] computes, and the buffer has
    the returned medians, newest first, in front of what it held, cut to
    its length. *)
Lemma run_valid_arrays (inputs : list (Msg * bool)) :
  forall self,
    initializtion self = false ->
    ignore_inputs self = false ->
    length (buf self) = BUFFER_LENGTH ->
    counter self + length inputs <= BUFFER_LENGTH ->
    Forall (fun i => msg_is_valid (fst i) = true) inputs ->
    exists self' meds,
      run self inputs = Some (self', []) /\
      push_all (map (fun i => msg_angle (fst i)) inputs) (angle self) FILTER_LENGTH
      = Some (meds, angle self') /\
      buf self' = firstn BUFFER_LENGTH (rev meds ++ buf self).
Proof.
  induction inputs as [| [msg result] rest IH];
    intros self Hinit Hign Hlen Hc Hall.
  - exists self, []. cbn [run map push_all rev app]. repeat split.
    rewrite firstn_all2; [reflexivity | lia].
  - cbn [length] in Hc. inversion Hall as [| i l Hvalid Hrest]; subst.
    cbn [fst] in Hvalid.
    assert (Hbuf : buf self <> []).
    { intros E. rewrite E in Hlen. discriminate. }
    destruct (AudioCallback_processed self msg result Hinit Hvalid Hign Hbuf)
      as (m & h & Hm & Hstep & _).
    cbn [run map push_all fst]. rewrite Hstep by lia. rewrite Hm.
    cbn [bind fst snd].
    edestruct (IH {| angle := h; buf := m :: removelast (buf self);
                     counter := counter self + 1;
                     ignore_inputs := false; initializtion := false |})
      as (self' & meds & Hrun & Hpush & Hb); try reflexivity.
    + cbn [buf]. rewrite length_removelast_cons; assumption.
    + cbn [counter]. lia.
    + exact Hrest.
    + cbn [angle buf] in Hpush, Hb. rewrite Hrun, Hpush. cbn [bind fst snd app].
      exists self', (m :: meds). repeat split.
      rewrite Hb. cbn [rev]. rewrite <- app_assoc. cbn [app].
      rewrite removelast_firstn_pred, Hlen.
      change (m :: firstn (BUFFER_LENGTH - 1) (buf self))
        with (firstn BUFFER_LENGTH (m :: buf self)).
      apply firstn_app_firstn. lia.
Qed.

(** After thirty valid messages nothing of the buffer's initial content is
    left: the zeros a reset fills in never reach a vote. *)
Lemma run_thirty_buffer (inputs : list (Msg * bool)) (self : Follower) :
  initializtion self = false ->
  ignore_inputs self = false ->
  length (buf self) = BUFFER_LENGTH ->
  counter self = 0 ->
  length inputs = BUFFER_LENGTH ->
  Forall (fun i => msg_is_valid (fst i) = true) inputs ->
  exists self' meds,
    run self inputs = Some (self', []) /\
    push_all (map (fun i => msg_angle (fst i)) inputs) (angle self) FILTER_LENGTH
    = Some (meds, angle self') /\
    buf self' = rev meds.
Proof.
  intros Hinit Hign Hlen Hc Hn Hall.
  destruct (run_valid_arrays inputs self Hinit Hign Hlen) as
      (self' & meds & Hrun & Hpush & Hb); [lia | exact Hall |].
  exists self', meds. split; [exact Hrun |]. split; [exact Hpush |].
  rewrite Hb. rewrite firstn_app.
  pose proof (push_all_length _ _ _ _ _ Hpush) as Hmeds.
  rewrite length_map in Hmeds.
  rewrite firstn_all2 by (rewrite length_rev; lia).
  replace (BUFFER_LENGTH - length (rev meds)) with 0 by (rewrite length_rev; lia).
  simpl. now rewrite app_nil_r.
Qed.

(** Thirty valid messages are counted without a commit, and the next valid
    one commits: the test [counter == BUFFER_LENGTH] comes before the
    increment. *)
Lemma commit_after_thirty_counted (self : Follower) (inputs : list (Msg * bool))
      (msg : Msg) (result : bool) :
  initializtion self = false ->
  ignore_inputs self = false ->
  length (buf self) = BUFFER_LENGTH ->
  counter self = 0 ->
  length inputs = BUFFER_LENGTH ->
  Forall (fun i => msg_is_valid (fst i) = true) inputs ->
  msg_is_valid msg = true ->
  exists self' d,
    run self inputs = Some (self', []) /\
    counter self' = BUFFER_LENGTH /\
    AudioCallback self' msg result = Some (after_commit, is_commit d result).
Proof.
  intros Hinit Hign Hlen Hc Hn Hall Hvalid.
  destruct (run_quiet inputs self Hinit Hign Hlen) as (self' & Hrun & H1 & H2 & H3 & H4);
    [lia |].
  specialize (H4 Hall).
  assert (Hbuf : buf self' <> []).
  { intros E. rewrite E in H3. discriminate. }
  destruct (AudioCallback_processed self' msg result H1 Hvalid H2 Hbuf)
    as (m & h & _ & _ & Hcommit).
  destruct Hcommit as (d & _ & Hd); [lia |].
  exists self', d. repeat split; [exact Hrun | lia | exact Hd].
Qed.

(** C1.  Commit cadence, as the code has it.  A constant stream of valid
    messages at 90 degrees: after the initialization message, thirty more
    are processed without any commit and leave the counter at 30; it is
    the thirty-first processed message that commits.  The same holds from
    the state a commit leaves behind. *)
Theorem C1_commit_on_thirty_first_sample :
  let valid := (mkMsg (F64.of_int 90) true, true) in
  (exists self,
      run Follower_init (valid :: repeat valid 30) = Some (self, []) /\
      counter self = 30) /\
  (exists self,
      run Follower_init (valid :: repeat valid 31)
      = Some (self, is_commit 90 true)) /\
  (exists self,
      run after_commit (repeat valid 30) = Some (self, []) /\
      counter self = 30) /\
  run after_commit (repeat valid 31) = Some (after_commit, is_commit 90 true).
Proof.
  cbv zeta. split; [| split; [| split]].
  - eexists. split; [vm_compute; reflexivity | reflexivity].
  - eexists. cbv -[F64.mul]. reflexivity.
  - eexists. split; [vm_compute; reflexivity | reflexivity].
  - cbv -[F64.mul]. reflexivity.
Qed.

Lemma median_single (v : float) : Np.median [v] = v.
Proof. destruct v; reflexivity. Qed.

(** C3.  The first push at startup.  [__init__] leaves one zero in the
    history, so the first value the filter sees after construction is
    averaged with it: 90 comes back as 45 and the history holds two
    elements.  After a commit the history is empty and the first push
    returns its input. *)
Theorem C3_first_push_at_startup_is_halved :
  (exists m,
      TemporalMedian (F64.of_int 90) (angle Follower_init) FILTER_LENGTH
      = Some (m, [F64.of_int 90; F64.zero]) /\
      m = F64.of_int 45 /\ m <> F64.of_int 90) /\
  (exists self,
      run Follower_init
          [(mkMsg F64.zero true, true); (mkMsg (F64.of_int 90) true, true)]
      = Some (self, []) /\
      angle self = [F64.of_int 90; F64.zero] /\
      hd F64.nan (buf self) = F64.of_int 45) /\
  (forall v, TemporalMedian v (angle after_commit) FILTER_LENGTH = Some (v, [v])).
Proof.
  split; [| split].
  - eexists. split; [vm_compute; reflexivity |]. split; [reflexivity | discriminate].
  - eexists. split; [vm_compute; reflexivity |]. split; reflexivity.
  - intros v. cbn [angle after_commit]. unfold TemporalMedian, Np.size, Np.hstack.
    cbn [length Nat.eqb]. now rewrite median_single.
Qed.

(** C4, amended.  A valid message outside the initialization and the gate
    is filtered to a median [m].  When the callback does not commit, the
    buffer it leaves has [m] itself, not rounded, as its newest element in
    front of the older ones, and the counter is one higher.  Integers
    appear only on the committing callback: the mode is taken over the
    buffer contents, [m] included, each converted by [astype(int)].  That
    conversion cuts toward zero: within the 64-bit range a value that is
    not negative goes to the integer at or just below it, and a value
    that is not positive to the integer at or just above it. *)
Theorem C4_buffer_holds_filtered_values :
  forall (self : Follower) (msg : Msg) (result : bool),
    initializtion self = false ->
    msg_is_valid msg = true ->
    ignore_inputs self = false ->
    buf self <> [] ->
    exists m h,
      TemporalMedian (msg_angle msg) (angle self) FILTER_LENGTH = Some (m, h) /\
      (counter self <> BUFFER_LENGTH ->
       exists self',
         AudioCallback self msg result = Some (self', []) /\
         buf self' = m :: removelast (buf self) /\
         hd F64.nan (buf self') = m /\
         counter self' = counter self + 1) /\
      (counter self = BUFFER_LENGTH ->
       exists d,
         GetMode (map Np.astype_int (m :: removelast (buf self))) = Some d /\
         AudioCallback self msg result = Some (after_commit, is_commit d result)) /\
      (forall (f : float) (q : Q),
          F64.value f = Some q ->
          (inject_Z Np.INT64_MIN <= q < inject_Z (2 ^ 63))%Q ->
          ((0 <= q)%Q ->
           (inject_Z (Np.astype_int f) <= q < inject_Z (Np.astype_int f) + 1)%Q) /\
          ((q <= 0)%Q ->
           (q <= inject_Z (Np.astype_int f) < q + 1)%Q)).
Proof.
  intros self msg result Hinit Hvalid Hign Hbuf.
  destruct (AudioCallback_processed self msg result Hinit Hvalid Hign Hbuf)
    as (m & h & Hm & Hcount & Hcommit).
  exists m, h. split; [exact Hm |]. split; [| split; [exact Hcommit |]].
  - intros Hc. eexists. split; [apply Hcount, Hc |]. repeat split.
  - exact astype_int_cuts.
Qed.

(** C7.  Reset property.  When a callback has committed, whatever result
    the actuator reported, the history is empty, the buffer is the
    zero-filled array of [BUFFER_LENGTH] entries it was at construction,
    the counter is 0 and the flag is clear; and no run of at most 29
    further messages, valid or not, commits again.  The zeros stand for
    no votes: once the 30 valid messages that precede the next commit are
    counted, the buffer holds their 30 filtered values and nothing else. *)
Theorem C7_reset_after_commit :
  forall (self : Follower) (msg : Msg) (result : bool)
         (self' : Follower) (evs : list Event) (target : Point),
    AudioCallback self msg result = Some (self', evs) ->
    In (SendGoal target) evs ->
    angle self' = [] /\
    buf self' = Np.zeros BUFFER_LENGTH /\
    counter self' = 0 /\
    ignore_inputs self' = false /\
    In (WaitResult result) evs /\
    (forall inputs : list (Msg * bool),
        length inputs <= 29 ->
        exists self'', run self' inputs = Some (self'', []) /\
                       counter self'' <= 29) /\
    (forall inputs : list (Msg * bool),
        length inputs = BUFFER_LENGTH ->
        Forall (fun i => msg_is_valid (fst i) = true) inputs ->
        exists self'' meds,
          run self' inputs = Some (self'', []) /\
          push_all (map (fun i => msg_angle (fst i)) inputs) [] FILTER_LENGTH
          = Some (meds, angle self'') /\
          buf self'' = rev meds).
Proof.
  intros self msg result self' evs target Hcb Hin.
  destruct (AudioCallback_commit_inv self msg result self' evs Hcb
              (In_SendGoal_nonempty target evs Hin))
    as (_ & _ & _ & _ & m & h & b & d' & _ & _ & _ & -> & ->).
  repeat split; try reflexivity.
  - simpl. auto.
  - intros inputs Hlen.
    destruct (run_quiet inputs after_commit eq_refl eq_refl eq_refl)
      as (self'' & Hrun & _ & _ & _ & _).
    { simpl. unfold BUFFER_LENGTH. lia. }
    exists self''. split; [exact Hrun |].
    apply (run_counter_bound inputs after_commit self'' []) in Hrun.
    simpl in Hrun. lia.
  - intros inputs Hlen Hall.
    exact (run_thirty_buffer inputs after_commit eq_refl eq_refl eq_refl eq_refl
             Hlen Hall).
Qed.

(** C8.  Invalid-sample discard.  Once the initialization message has
    been consumed, a message that is not valid leaves every attribute of
    the controller as it was, causes no effect on the collaborators and
    raises nothing. *)
Theorem C8_invalid_sample_discarded :
  forall (self : Follower) (msg : Msg) (result : bool),
    initializtion self = false ->
    msg_is_valid msg = false ->
    AudioCallback self msg result = Some (self, []).
Proof.
  intros self msg result Hinit Hvalid.
  unfold AudioCallback. now rewrite Hinit, Hvalid.
Qed.


(** ** The callbacks under the lock *)

(** The critical section of [AudioCallback] is its part up to the wait
    for the actuator followed, on a commit, by the rest of
    [SetPointHead]. *)
Lemma AudioCallback_enter_then_wait (self : Follower) (msg : Msg) (result : bool) :
  AudioCallback self msg result
  = match AudioCallback_enter self msg with
    | None => None
    | Some (Released self', evs) => Some (self', evs)
    | Some (Moving self', evs) =>
        let (self'', waited) := SetPointHead_wait self' result in
        Some (self'', evs ++ waited)
    end.
Proof.
  unfold AudioCallback, AudioCallback_enter.
  destruct (initializtion self); [reflexivity |].
  destruct (msg_is_valid msg && negb (ignore_inputs self)); [| reflexivity].
  destruct (TemporalMedian _ _ _) as [[m h] |]; [| reflexivity]. cbn [bind].
  destruct (DownSample _ _) as [b |]; [| reflexivity]. cbn [bind].
  destruct (counter (set_buf (set_angle self h) b) =? BUFFER_LENGTH); [| reflexivity].
  destruct (GetMode _) as [d |]; reflexivity.
Qed.

(** The flag a callback leaves when it started with the flag clear:
    clear if it released the lock, set if it waits for the actuator. *)
Lemma AudioCallback_enter_flag (self : Follower) (msg : Msg)
      (p : Progress) (evs : list Event) :
  ignore_inputs self = false ->
  AudioCallback_enter self msg = Some (p, evs) ->
  match p with
  | Released self' => ignore_inputs self' = false
  | Moving self' => ignore_inputs self' = true
  end.
Proof.
  intros Hign. unfold AudioCallback_enter.
  destruct (initializtion self); [intros [= <- <-]; exact Hign |].
  destruct (msg_is_valid msg && negb (ignore_inputs self));
    [| intros [= <- <-]; exact Hign].
  destruct (TemporalMedian _ _ _) as [[m h] |]; [| discriminate]. cbn [bind].
  destruct (DownSample _ _) as [b |]; [| discriminate]. cbn [bind].
  destruct (counter (set_buf (set_angle self h) b) =? BUFFER_LENGTH).
  - destruct (GetMode _) as [d |]; [| discriminate]. cbn [bind].
    intros [= <- <-]. reflexivity.
  - intros [= <- <-]. exact Hign.
Qed.

Lemma step_flag_follows_lock (s s' : System) (l : Label) :
  flag_follows_lock s -> step s l = Next s' -> flag_follows_lock s'.
Proof.
  unfold flag_follows_lock. intros Hinv. destruct l as [msg | i | result]; cbn [step].
  - intros [= <-]. exact Hinv.
  - destruct (lock_held s) eqn:Hlock; [discriminate |].
    destruct (nth_error (waiting s) i) as [msg |]; [| discriminate].
    destruct (AudioCallback_enter (follower s) msg) as [[p evs] |] eqn:Hcb;
      [| discriminate].
    pose proof (AudioCallback_enter_flag _ _ _ _ Hinv Hcb) as Hflag.
    destruct p as [self' | self']; intros [= <-]; exact Hflag.
  - destruct (lock_held s); [| discriminate].
    intros [= <-]. reflexivity.
Qed.

Lemma exec_flag_follows_lock (ls : list Label) :
  forall s s', flag_follows_lock s -> exec s ls = Next s' -> flag_follows_lock s'.
Proof.
  induction ls as [| l ls IH]; intros s s' Hinv Hexec.
  - simpl in Hexec. injection Hexec as <-. exact Hinv.
  - cbn [exec] in Hexec. destruct (step s l) as [s1 | |] eqn:Hstep; try discriminate.
    apply (IH s1 s'); [| exact Hexec].
    exact (step_flag_follows_lock s s1 l Hinv Hstep).
Qed.

(** While the lock is held no waiting callback runs. *)
Lemma Acquire_blocked (s : System) (i : nat) :
  lock_held s = true -> step s (Acquire i) = Disabled.
Proof. intros H. cbn [step]. now rewrite H. Qed.

(** C10.  The flag outside [SetPointHead].  In every state the callbacks
    can reach, [ignore_inputs] is set exactly while the lock is held by a
    callback waiting for the actuator.  So a callback that takes the lock,
    whichever of the waiting ones it is, finds the flag clear, and
    whenever a step ends with the lock released (the callback has
    returned) the flag is clear again. *)
Theorem C10_flag_clear_at_entry_and_exit :
  forall (ls : list Label) (s : System),
    exec System_init ls = Next s ->
    ignore_inputs (follower s) = lock_held s /\
    (forall i s', step s (Acquire i) = Next s' ->
                  ignore_inputs (follower s) = false) /\
    (forall l s', step s l = Next s' -> lock_held s' = false ->
                  ignore_inputs (follower s') = false).
Proof.
  intros ls s Hexec.
  assert (Hinv : flag_follows_lock s).
  { apply (exec_flag_follows_lock ls System_init s); [reflexivity | exact Hexec]. }
  split; [exact Hinv | split].
  - intros i s' Hstep. cbn [step] in Hstep.
    destruct (lock_held s) eqn:Hlock; [discriminate |].
    unfold flag_follows_lock in Hinv. congruence.
  - intros l s' Hstep Hfree.
    pose proof (step_flag_follows_lock s s' l Hinv Hstep) as Hinv'.
    unfold flag_follows_lock in Hinv'. congruence.
Qed.

(** C2.  A message delivered during a commit.  After the initialization
    message and thirty counted ones, the next valid message commits: its
    callback holds the lock with the flag set.  A valid message at 42
    degrees delivered now waits for the lock.  When the actuator is done
    the flag is cleared before the lock is released, so the waiting
    callback finds the flag clear and processes its message: the history
    is [42], the newest buffer element is 42 and the counter is 1. *)
Theorem C2_sample_during_commit_is_processed :
  let valid := mkMsg (F64.of_int 90) true in
  let late := mkMsg (F64.of_int 42) true in
  exists committing s_final,
    exec System_init
         (handled valid ++ concat (repeat (handled valid) 31) ++ [Deliver late])
    = Next committing /\
    lock_held committing = true /\
    ignore_inputs (follower committing) = true /\
    waiting committing = [late] /\
    trace committing
    = [PublishPoint (goal_point 90); PublishMarker origin (goal_point 90);
       SendGoal (goal_point 90)] /\
    (forall i, step committing (Acquire i) = Disabled) /\
    exec committing [ActuatorDone true; Acquire 0] = Next s_final /\
    waiting s_final = [] /\
    angle (follower s_final) = [F64.of_int 42] /\
    hd F64.nan (buf (follower s_final)) = F64.of_int 42 /\
    counter (follower s_final) = 1.
Proof.
  cbv zeta. eexists. eexists.
  split; [cbv -[F64.mul]; reflexivity |].
  split; [reflexivity |]. split; [reflexivity |]. split; [reflexivity |].
  split; [reflexivity |]. split; [intros i; reflexivity |].
  split; [cbv -[F64.mul]; reflexivity |].
  repeat split.
Qed.

(** * Further properties of the filter pipeline *)

(** X3.  [TemporalMedian] never raises.  It returns the median of the
    history it returns; that history has the new value at index 0, is one
    longer than before while the old one is empty or shorter than
    [length], and keeps its size otherwise, the last element making room
    (a history longer than [length] is not cut down). *)
Theorem X3_TemporalMedian_history :
  forall (v : float) (h : list float) (n : nat),
    exists h',
      TemporalMedian v h n = Some (Np.median h', h') /\
      h' = v :: (if (length h =? 0) || (length h <? n) then h else removelast h) /\
      length h' = (if (length h =? 0) || (length h <? n)
                   then S (length h) else length h) /\
      (0 < n -> length h <= n -> length h' <= n).
Proof.
  intros v h n. unfold TemporalMedian, Np.size, Np.hstack.
  destruct (length h =? 0) eqn:E0; cbn [orb].
  - eexists. split; [reflexivity |]. split; [reflexivity |].
    split; [reflexivity |]. apply Nat.eqb_eq in E0. simpl. lia.
  - apply Nat.eqb_neq in E0.
    destruct (length h <? n) eqn:E1.
    + eexists. split; [reflexivity |]. split; [reflexivity |].
      split; [reflexivity |]. apply Nat.ltb_lt in E1. simpl. lia.
    + assert (Hne : h <> []) by (destruct h; [simpl in E0; lia | discriminate]).
      rewrite setitem0_roll1 by exact Hne. cbn [bind].
      eexists. split; [reflexivity |]. split; [reflexivity |].
      rewrite length_removelast_cons by exact Hne. split; [reflexivity | lia].
Qed.

(** X4.  The zero [__init__] leaves in the history.  Pushing [xs] on the
    history of a fresh [Follower] leaves the 20 newest of [xs] followed
    by that zero: the zero is the oldest entry of the window for the first
    19 pushes, and from the 20th push on the history is the same as the
    one built from an empty history. *)
Theorem X4_startup_zero_leaves_after_twenty :
  forall xs : list float,
    exists outs,
      push_all xs (angle Follower_init) FILTER_LENGTH
      = Some (outs, firstn FILTER_LENGTH (rev xs ++ [F64.zero])) /\
      length outs = length xs /\
      (length xs < FILTER_LENGTH ->
       firstn FILTER_LENGTH (rev xs ++ [F64.zero]) = rev xs ++ [F64.zero]) /\
      (FILTER_LENGTH <= length xs ->
       exists outs',
         push_all xs [] FILTER_LENGTH
         = Some (outs', firstn FILTER_LENGTH (rev xs ++ [F64.zero])) /\
         firstn FILTER_LENGTH (rev xs ++ [F64.zero]) = firstn FILTER_LENGTH (rev xs)).
Proof.
  intros xs.
  assert (Hpos : 0 < FILTER_LENGTH) by (unfold FILTER_LENGTH; lia).
  destruct (push_all_window FILTER_LENGTH xs (angle Follower_init) Hpos)
    as [outs Houts]; [simpl; unfold FILTER_LENGTH; lia |].
  change (angle Follower_init) with [F64.zero] in *.
  exists outs. split; [exact Houts |].
  split; [exact (push_all_length _ _ _ _ _ Houts) |]. split.
  - intros Hlt. apply firstn_all2. rewrite length_app, length_rev. simpl.
    unfold FILTER_LENGTH in *. lia.
  - intros Hge.
    assert (Hsame : firstn FILTER_LENGTH (rev xs ++ [F64.zero])
                    = firstn FILTER_LENGTH (rev xs)).
    { rewrite firstn_app.
      replace (FILTER_LENGTH - length (rev xs)) with 0
        by (rewrite length_rev; lia).
      simpl. now rewrite app_nil_r. }
    destruct (push_all_window FILTER_LENGTH xs [] Hpos) as [outs' Houts'];
      [simpl; lia |].
    rewrite app_nil_r in Houts'.
    exists outs'. rewrite Hsame. split; [exact Houts' | reflexivity].
Qed.

(** ** The down-sample buffer *)

(** X6.  [DownSample] raises exactly on an array of size 0.  On any other
    array it puts the new value at index 0, moves the old entries one
    place up, drops the last one and so keeps the size. *)
Theorem X6_DownSample_ring :
  forall (v : float) (b : list float),
    (DownSample v b = None <-> b = []) /\
    (b <> [] ->
     DownSample v b = Some (v :: removelast b) /\
     length (v :: removelast b) = length b /\
     forall i, S i < length b -> nth (S i) (v :: removelast b) F64.nan = nth i b F64.nan).
Proof.
  intros v b. split.
  - split.
    + intros H. destruct b as [| x b]; [reflexivity |].
      rewrite DownSample_cons in H by discriminate. discriminate.
    + intros ->. reflexivity.
  - intros Hb. split; [now apply DownSample_cons |].
    split; [now apply length_removelast_cons |].
    intros i Hi. cbn [nth]. rewrite removelast_firstn_pred, nth_firstn.
    destruct (i <? length b - 1) eqn:E; [reflexivity |].
    apply Nat.ltb_ge in E. lia.
Qed.

Lemma push_buffer_window (vs : list float) :
  forall b, b <> [] ->
            push_buffer vs b = Some (firstn (length b) (rev vs ++ b)).
Proof.
  induction vs as [| v vs IH]; intros b Hb.
  - simpl. now rewrite firstn_all.
  - cbn [push_buffer]. rewrite (DownSample_cons v b Hb). cbn [bind].
    rewrite IH by discriminate.
    rewrite (length_removelast_cons v b Hb). f_equal.
    cbn [rev]. rewrite <- app_assoc. cbn [app].
    rewrite removelast_firstn_pred.
    assert (Hlen : 0 < length b) by (destruct b; [contradiction | simpl; lia]).
    replace (v :: firstn (length b - 1) b) with (firstn (length b) (v :: b)).
    + apply firstn_app_firstn. lia.
    + destruct (length b) as [| k]; [lia |]. simpl. now rewrite Nat.sub_0_r.
Qed.

(** X7.  The buffer is a window over the pushed values.  After any
    sequence of pushes a non-empty buffer holds the newest values, newest
    first, in as many places as it has; once as many values are pushed as
    the buffer has places, nothing of its earlier content is left. *)
Theorem X7_push_buffer_window :
  forall (vs b : list float),
    b <> [] ->
    push_buffer vs b = Some (firstn (length b) (rev vs ++ b)) /\
    (length b <= length vs ->
     push_buffer vs b = Some (firstn (length b) (rev vs))).
Proof.
  intros vs b Hb. split; [now apply push_buffer_window |].
  intros Hlen. rewrite push_buffer_window by exact Hb. f_equal.
  rewrite firstn_app.
  replace (length b - length (rev vs)) with 0 by (rewrite length_rev; lia).
  simpl. now rewrite app_nil_r.
Qed.

Lemma X7_push_buffer_witness :
  push_buffer [F64.of_int 1; F64.of_int 2; F64.of_int 3; F64.of_int 4] (Np.zeros 3)
  = Some [F64.of_int 4; F64.of_int 3; F64.of_int 2].
Proof.
  apply (X7_push_buffer_window
           [F64.of_int 1; F64.of_int 2; F64.of_int 3; F64.of_int 4] (Np.zeros 3)).
  - discriminate.
  - simpl. lia.
Defined.

(** ** The mode *)

(** X8.  [GetMode] raises exactly on an array of size 0 (the [ValueError]
    of [argmax]); on every other array it returns an element of the
    array. *)
Theorem X8_GetMode_raises_on_empty_only :
  forall buf : list Z,
    (GetMode buf = None <-> buf = []) /\
    (forall m, GetMode buf = Some m -> In m buf).
Proof.
  intros buf. split; [split |].
  - intros H. destruct buf as [| x buf]; [reflexivity |].
    destruct (GetMode_spec (x :: buf)) as (m & Hm & _); [discriminate | congruence].
  - intros ->. reflexivity.
  - intros m Hm. destruct buf as [| x buf]; [discriminate |].
    destruct (GetMode_spec (x :: buf)) as (m' & Hm' & Hin & _); [discriminate |].
    congruence.
Qed.

Lemma GetMode_Permutation (buf buf' : list Z) :
  Permutation buf buf' -> GetMode buf = GetMode buf'.
Proof.
  intros Hp.
  destruct buf as [| x buf].
  { apply Permutation_nil in Hp. now subst. }
  destruct buf' as [| x' buf'].
  { apply Permutation_sym, Permutation_nil in Hp. discriminate. }
  pose proof (proj1 (Permutation_count_occ Z.eq_dec _ _) Hp) as Hc.
  destruct (GetMode_spec (x :: buf)) as (m & Hm & _ & Hmax & Htie); [discriminate |].
  destruct (GetMode_spec (x' :: buf')) as (m' & Hm' & _ & Hmax' & Htie'); [discriminate |].
  rewrite Hm, Hm'. f_equal.
  assert (Heq : count_occ Z.eq_dec (x :: buf) m' = count_occ Z.eq_dec (x :: buf) m).
  { apply Nat.le_antisymm; [apply Hmax |].
    rewrite !Hc. apply Hmax'. }
  apply Z.le_antisymm.
  - apply Htie. exact Heq.
  - apply Htie'. rewrite <- !Hc. symmetry. exact Heq.
Qed.

(** X9.  The vote does not depend on the order of the buffer: two arrays
    with the same entries in any order have the same mode. *)
Theorem X9_GetMode_order_independent :
  forall buf buf' : list Z,
    Permutation buf buf' -> GetMode buf = GetMode buf'.
Proof. exact GetMode_Permutation. Qed.

Lemma X9_GetMode_order_witness :
  GetMode [20; 10; 20; 10; 5]%Z = GetMode [10; 10; 20; 20; 5]%Z.
Proof.
  apply (X9_GetMode_order_independent [20; 10; 20; 10; 5]%Z [10; 10; 20; 20; 5]%Z).
  apply perm_trans with (l' := [10; 20; 20; 10; 5]%Z); [apply perm_swap |].
  apply perm_skip.
  apply perm_trans with (l' := [20; 10; 20; 5]%Z); [apply perm_skip, perm_swap |].
  apply perm_swap.
Defined.

Lemma GetMode_plurality (buf : list Z) (v : Z) :
  (forall u, u <> v -> count_occ Z.eq_dec buf u < count_occ Z.eq_dec buf v) ->
  GetMode buf = Some v.
Proof.
  intros Hv. destruct buf as [| x buf].
  { specialize (Hv (v + 1)%Z ltac:(lia)). simpl in Hv. lia. }
  destruct (GetMode_spec (x :: buf)) as (m & Hm & _ & Hmax & _); [discriminate |].
  rewrite Hm. f_equal. destruct (Z.eq_dec m v) as [E | E]; [exact E |].
  specialize (Hv m E). specialize (Hmax v). lia.
Qed.

Lemma count_occ_two (l : list Z) (u v : Z) :
  u <> v -> count_occ Z.eq_dec l u + count_occ Z.eq_dec l v <= length l.
Proof.
  intros Huv. induction l as [| x l IH]; [simpl; lia |].
  simpl. destruct (Z.eq_dec x u), (Z.eq_dec x v); subst; try contradiction; lia.
Qed.

(** X10.  Majority vote.  A value that occurs more often than every other
    value is the mode; in particular a value that fills more than half of
    the buffer is the mode. *)
Theorem X10_GetMode_majority :
  forall (buf : list Z) (v : Z),
    ((forall u, u <> v -> count_occ Z.eq_dec buf u < count_occ Z.eq_dec buf v) ->
     GetMode buf = Some v) /\
    (length buf < 2 * count_occ Z.eq_dec buf v -> GetMode buf = Some v).
Proof.
  intros buf v. split; [apply GetMode_plurality |].
  intros Hmaj. apply GetMode_plurality. intros u Hu.
  pose proof (count_occ_two buf u v Hu). lia.
Qed.

(** ** A value that fills more than half of the window *)

Lemma occurrences_app (v : float) (a b : list float) :
  occurrences v (a ++ b) = occurrences v a + occurrences v b.
Proof. unfold occurrences. apply count_occ_app. Qed.

Lemma occurrences_le (v : float) (a : list float) : occurrences v a <= length a.
Proof. unfold occurrences. apply count_occ_bound. Qed.

Lemma occurrences_none (v : float) (a : list float) :
  ~ In v a -> occurrences v a = 0.
Proof. unfold occurrences. apply count_occ_not_In. Qed.

Lemma occurrences_Permutation (v : float) (a b : list float) :
  Permutation a b -> occurrences v a = occurrences v b.
Proof.
  unfold occurrences. intros H.
  exact (proj1 (Permutation_count_occ float_eq_dec a b) H v).
Qed.

Lemma occurrences_repeat (v : float) (j : nat) : occurrences v (repeat v j) = j.
Proof. unfold occurrences. apply count_occ_repeat_eq. reflexivity. Qed.

Lemma rank_cases (a b : Z * Z * Z) : F64.rank_lt a b \/ a = b \/ F64.rank_lt b a.
Proof.
  destruct a as [[a1 a2] a3], b as [[b1 b2] b3]. unfold F64.rank_lt.
  destruct (Z.lt_total a1 b1) as [H | [H | H]]; [left; lia | | right; right; lia].
  destruct (Z.lt_total a2 b2) as [H2 | [H2 | H2]]; [left; lia | | right; right; lia].
  destruct (Z.lt_total a3 b3) as [H3 | [H3 | H3]]; [left; lia | | right; right; lia].
  right; left. congruence.
Qed.

Lemma rank_lt_not_le (a b : float) :
  F64.rank_lt (F64.rank a) (F64.rank b) -> Np.le b a = true -> False.
Proof.
  intros Hlt Hle. apply le_rank in Hle. revert Hlt Hle.
  unfold F64.rank_lt, F64.rank_le.
  destruct (F64.rank a) as [[a1 a2] a3], (F64.rank b) as [[b1 b2] b3]. lia.
Qed.

(** Two values at one place of the order are the same value, or two
    zeros. *)
Lemma rank_eq (a v : float) :
  F64.rank a = F64.rank v ->
  a = v \/ exists s s', a = S754_zero s /\ v = S754_zero s'.
Proof.
  destruct a as [sa | [|] | | [|] ma ea], v as [sv | [|] | | [|] mv ev];
    cbn; intros H; try discriminate; try (left; reflexivity).
  - right. eauto.
  - left. injection H as He Hm. f_equal; lia.
  - left. injection H as He Hm. f_equal; lia.
Qed.

(** In sorted data, a value that fills more than half of the places
    fills the middle ones. *)
Lemma sorted_majority_nth (s : list float) (v : float) (i : nat) :
  StronglySorted (fun a b => Np.le a b = true) s ->
  length s - occurrences v s <= i < occurrences v s ->
  F64.rank (nth i s F64.nan) = F64.rank v.
Proof.
  intros Hs [Hlo Hhi].
  assert (Hi : i < length s) by (pose proof (occurrences_le v s); lia).
  destruct (nth_split s F64.nan Hi) as (l1 & l2 & Hsplit & Hl1).
  set (x := nth i s F64.nan) in *.
  assert (Hlen : length s = i + S (length l2)).
  { rewrite Hsplit at 1. rewrite length_app. simpl. lia. }
  rewrite Hsplit in Hs. destruct (StronglySorted_around _ _ _ Hs) as [Hbefore Hafter].
  assert (Hocc : occurrences v s
                 = occurrences v l1 + (occurrences v [x] + occurrences v l2)).
  { rewrite Hsplit at 1. rewrite occurrences_app.
    change (x :: l2) with ([x] ++ l2). now rewrite occurrences_app. }
  rewrite Forall_forall in Hbefore, Hafter.
  destruct (rank_cases (F64.rank x) (F64.rank v)) as [Hlt | [Heq | Hgt]];
    [| exact Heq |]; exfalso.
  - assert (H1 : occurrences v l1 = 0).
    { apply occurrences_none. intros Hin.
      exact (rank_lt_not_le x v Hlt (Hbefore v Hin)). }
    assert (Hx : occurrences v [x] = 0).
    { apply occurrences_none. intros [Hin | []].
      rewrite Hin in Hlt. exact (rank_lt_not_le v v Hlt (le_refl v)). }
    pose proof (occurrences_le v l2). lia.
  - assert (H2 : occurrences v l2 = 0).
    { apply occurrences_none. intros Hin.
      exact (rank_lt_not_le v x Hgt (Hafter v Hin)). }
    assert (Hx : occurrences v [x] = 0).
    { apply occurrences_none. intros [Hin | []].
      rewrite Hin in Hgt. exact (rank_lt_not_le v v Hgt (le_refl v)). }
    pose proof (occurrences_le v l1). lia.
Qed.

Lemma median_majority (w : list float) (v : float) :
  existsb F64.isnan w = false ->
  length w < 2 * occurrences v w ->
  exists a b,
    F64.rank a = F64.rank v /\ F64.rank b = F64.rank v /\
    Np.median w = if Nat.even (length w) then Np.mean2 a b else a.
Proof.
  intros Hnan Hmaj.
  assert (Hocc : occurrences v (Np.sort w) = occurrences v w).
  { apply occurrences_Permutation, sort_Permutation. }
  assert (Hnth : forall i, length w - occurrences v w <= i < occurrences v w ->
                           F64.rank (nth i (Np.sort w) F64.nan) = F64.rank v).
  { intros i Hi. apply sorted_majority_nth; [apply sort_sorted |].
    now rewrite Hocc, sort_length. }
  pose proof (occurrences_le v w) as Hle.
  unfold Np.median. cbv zeta. rewrite Hnan.
  destruct (Nat.even (length w)) eqn:Heven.
  - apply Nat.even_spec in Heven. destruct Heven as [k Hk].
    assert (Hdiv : length w / 2 = k).
    { rewrite Hk, Nat.mul_comm. apply Nat.div_mul. lia. }
    eexists _, _. split; [| split; [| reflexivity]]; apply Hnth; lia.
  - assert (Hodd : Nat.odd (length w) = true).
    { rewrite <- Nat.negb_even, Heven. reflexivity. }
    apply Nat.odd_spec in Hodd. destruct Hodd as [k Hk].
    assert (Hdiv : length w / 2 = k).
    { rewrite Hk. replace (2 * k + 1) with (1 + k * 2) by lia.
      rewrite Nat.div_add by lia. reflexivity. }
    exists (nth (length w / 2) (Np.sort w) F64.nan),
           (nth (length w / 2) (Np.sort w) F64.nan).
    split; [| split; [| reflexivity]]; apply Hnth; lia.
Qed.

(** X2.  Outliers do not move the median.  When a window holds no nan and
    more than half of its entries are one value [v] other than a zero,
    the filtered value is [v] for an odd window and the binary64 mean of
    [v] with itself for an even one, whatever the other entries are. *)
Theorem X2_median_of_majority :
  forall (w : list float) (v : float),
    existsb F64.isnan w = false ->
    (forall s, v <> S754_zero s) ->
    length w < 2 * occurrences v w ->
    Np.median w = if Nat.even (length w) then Np.mean2 v v else v.
Proof.
  intros w v Hnan Hv Hmaj.
  destruct (median_majority w v Hnan Hmaj) as (a & b & Ha & Hb & ->).
  assert (Hsame : forall c, F64.rank c = F64.rank v -> c = v).
  { intros c Hc. destruct (rank_eq c v Hc) as [H | (s & s' & _ & H)];
      [exact H | destruct (Hv s' H)]. }
  now rewrite (Hsame a Ha), (Hsame b Hb).
Qed.

Lemma X2_median_majority_witness :
  Np.median [F64.of_int 90; F64.of_int 370; F64.of_int 90; F64.of_int 90;
             F64.of_int (-12)]
  = F64.of_int 90.
Proof.
  apply (X2_median_of_majority
           [F64.of_int 90; F64.of_int 370; F64.of_int 90; F64.of_int 90;
            F64.of_int (-12)] (F64.of_int 90)).
  - reflexivity.
  - intros s H. vm_compute in H. discriminate.
  - vm_compute. lia.
Defined.

(** ** A nan in the window *)

Lemma existsb_isnan_In (x : float) (w : list float) :
  In x w -> F64.isnan x = true -> existsb F64.isnan w = true.
Proof. intros Hin Hx. apply existsb_exists. now exists x. Qed.

Lemma nth_error_firstn_lt {A : Type} (l : list A) (n p : nat) :
  p < n -> nth_error (firstn n l) p = nth_error l p.
Proof.
  revert l p. induction n as [| n IH]; intros l p Hp; [lia |].
  destruct l as [| a l]; [reflexivity |].
  destruct p as [| p]; [reflexivity |]. simpl. apply IH. lia.
Qed.

(** A nan at place [p] of the history stays in the window for the next
    [n - 1 - p] pushes, and every one of them returns nan. *)
Lemma push_all_nan (n : nat) (xs : list float) :
  forall (h : list float) (p : nat) (x : float) (outs h' : list float),
    length h <= n ->
    nth_error h p = Some x -> F64.isnan x = true ->
    p + length xs < n ->
    push_all xs h n = Some (outs, h') ->
    Forall (fun m => m = F64.nan) outs.
Proof.
  induction xs as [| y xs IH]; intros h p x outs h' Hh Hp Hx Hlen Hrun.
  - simpl in Hrun. injection Hrun as <- _. constructor.
  - cbn [push_all] in Hrun. simpl in Hlen.
    rewrite TemporalMedian_window in Hrun by lia.
    cbn [bind fst snd] in Hrun.
    assert (Hp' : nth_error (firstn n (y :: h)) (S p) = Some x).
    { rewrite nth_error_firstn_lt by lia. exact Hp. }
    destruct (push_all xs (firstn n (y :: h)) n) as [[o2 h2] |] eqn:E2;
      [| discriminate].
    cbn [bind fst snd] in Hrun. injection Hrun as <- _.
    constructor.
    + apply median_nan. apply (existsb_isnan_In x); [| exact Hx].
      exact (nth_error_In _ _ Hp').
    + apply (IH (firstn n (y :: h)) (S p) x o2 h2); try assumption; try lia.
      rewrite length_firstn. lia.
Qed.

(** X5.  One nan poisons the filter for a whole window.  When a message
    angle is nan, the push of it and each of the next [length - 1] pushes
    return nan, whatever values are pushed and whatever the history
    was. *)
Theorem X5_nan_angle_fills_the_window :
  forall (v : float) (xs h : list float) (n : nat) (outs h' : list float),
    F64.isnan v = true ->
    length h <= n ->
    length xs < n ->
    push_all (v :: xs) h n = Some (outs, h') ->
    length outs = S (length xs) /\ Forall (fun m => m = F64.nan) outs.
Proof.
  intros v xs h n outs h' Hv Hh Hlen Hrun.
  split; [exact (push_all_length n (v :: xs) h outs h' Hrun) |].
  cbn [push_all] in Hrun.
  rewrite TemporalMedian_window in Hrun by lia.
  cbn [bind fst snd] in Hrun.
  assert (Hn : exists k, n = S k) by (destruct n; [lia | eauto]).
  destruct Hn as [k ->].
  destruct (push_all xs (firstn (S k) (v :: h)) (S k)) as [[o2 h2] |] eqn:E2;
    [| discriminate].
  cbn [bind fst snd] in Hrun. injection Hrun as <- _.
  constructor.
  - apply median_nan. cbn [firstn existsb]. now rewrite Hv.
  - apply (push_all_nan (S k) xs (firstn (S k) (v :: h)) 0 v o2 h2);
      try assumption; try lia; [rewrite length_firstn; lia | reflexivity].
Qed.

Lemma X5_nan_angle_witness :
  exists outs h',
    push_all [F64.nan; F64.of_int 90; F64.of_int 90] [F64.of_int 90] FILTER_LENGTH
    = Some (outs, h') /\
    length outs = 3 /\ Forall (fun m => m = F64.nan) outs.
Proof.
  eexists. eexists. split; [vm_compute; reflexivity |].
  apply (X5_nan_angle_fills_the_window
           F64.nan [F64.of_int 90; F64.of_int 90] [F64.of_int 90] FILTER_LENGTH
           [F64.nan; F64.nan; F64.nan]
           [F64.of_int 90; F64.of_int 90; F64.nan; F64.of_int 90]).
  - reflexivity.
  - unfold FILTER_LENGTH. simpl. lia.
  - unfold FILTER_LENGTH. simpl. lia.
  - vm_compute. reflexivity.
Defined.

(** ** The conversion to integers *)

Lemma astype_int_int64 (f : float) :
  (Np.INT64_MIN <= Np.astype_int f < 2 ^ 63)%Z.
Proof.
  unfold Np.astype_int.
  destruct (F64.value f) as [q |]; [| unfold Np.INT64_MIN; lia].
  cbv zeta.
  destruct ((Np.INT64_MIN <=? Z.quot (Qnum q) (Z.pos (Qden q)))
            && (Z.quot (Qnum q) (Z.pos (Qden q)) <? 2 ^ 63))%Z eqn:E.
  - apply andb_true_iff in E. rewrite Z.leb_le, Z.ltb_lt in E. exact E.
  - unfold Np.INT64_MIN. lia.
Qed.

(** X11.  [astype(int)] on one value.  The answer is always a 64-bit
    integer.  A value strictly between -1 and 1 goes to 0, from whichever
    side: the conversion cuts, it does not round down.  Nan, the
    infinities and the values outside the 64-bit range all go to the
    least 64-bit integer. *)
Theorem X11_astype_int_range_and_edges :
  (forall f : float, (Np.INT64_MIN <= Np.astype_int f < 2 ^ 63)%Z) /\
  (forall (f : float) (q : Q),
      F64.value f = Some q -> (- (1) < q < 1)%Q -> Np.astype_int f = 0%Z) /\
  (forall f : float, F64.value f = None -> Np.astype_int f = Np.INT64_MIN) /\
  (forall (f : float) (q : Q),
      F64.value f = Some q ->
      (inject_Z (2 ^ 63) <= q \/ q < inject_Z Np.INT64_MIN)%Q ->
      Np.astype_int f = Np.INT64_MIN).
Proof.
  split; [| split; [| split]].
  - exact astype_int_int64.
  - intros f q Hv [Hlo Hhi]. unfold Np.astype_int. rewrite Hv. cbv zeta.
    destruct q as [n d]. cbn [Qnum Qden].
    unfold Qlt in Hlo, Hhi. cbn [Qnum Qden Qopp] in Hlo, Hhi.
    assert (Hz : Z.quot n (Z.pos d) = 0%Z).
    { destruct (quot_cut n d) as [Hpos Hneg]. cbv zeta in Hpos, Hneg.
      destruct (Z.le_ge_cases 0 n) as [Hn | Hn].
      - destruct (Hpos Hn) as [[H1 H2] H3]. nia.
      - destruct (Hneg ltac:(lia)) as [[H1 H2] H3]. nia. }
    rewrite Hz. reflexivity.
  - intros f. apply astype_int_outside.
  - intros f. apply astype_int_outside.
Qed.

Lemma X11_astype_int_witness :
  Np.astype_int (F64.dyadic (-1) (-1)) = 0%Z /\
  Np.astype_int (S754_infinity false) = Np.INT64_MIN.
Proof.
  split.
  - apply (proj1 (proj2 X11_astype_int_range_and_edges)
             (F64.dyadic (-1) (-1))
             (-4503599627370496 # 9007199254740992)%Q).
    + vm_compute. reflexivity.
    + split; reflexivity.
  - apply (proj1 (proj2 (proj2 X11_astype_int_range_and_edges))
             (S754_infinity false)).
    reflexivity.
Defined.

(** * Further properties of the controller *)

Lemma Follower_init_well_formed : well_formed Follower_init.
Proof. unfold well_formed, BUFFER_LENGTH, FILTER_LENGTH. simpl. repeat split; lia. Qed.

Lemma after_commit_well_formed : well_formed after_commit.
Proof. unfold well_formed, BUFFER_LENGTH, FILTER_LENGTH. simpl. repeat split; lia. Qed.

(** One callback on a well-formed state: it returns, the state stays
    well-formed, and the counter accounts for the message. *)
Lemma AudioCallback_well_formed (self : Follower) (msg : Msg) (result : bool) :
  well_formed self ->
  exists self' evs,
    AudioCallback self msg result = Some (self', evs) /\
    well_formed self' /\
    (evs = [] \/ exists d, evs = is_commit d result) /\
    (initializtion self = true ->
     evs = [] /\ counter self' = counter self /\ initializtion self' = false) /\
    (initializtion self = false ->
     initializtion self' = false /\
     31 * commits evs + counter self'
     = counter self + (if msg_is_valid msg then 1 else 0)).
Proof.
  intros (Hlen & Hc & Hign & Hang).
  destruct (initializtion self) eqn:Hinit.
  - exists (set_initializtion self false), [].
    split; [unfold AudioCallback; now rewrite Hinit |].
    split; [repeat split; assumption |].
    split; [now left |]. split; [repeat split | discriminate].
  - destruct (msg_is_valid msg) eqn:Hvalid.
    + assert (Hbuf : buf self <> []).
      { intros E. rewrite E in Hlen. discriminate. }
      destruct (AudioCallback_processed self msg result Hinit Hvalid Hign Hbuf)
        as (m & h & Hm & Hcount & Hcommit).
      rewrite TemporalMedian_window in Hm
        by (unfold FILTER_LENGTH in *; lia || assumption).
      assert (Hh : h = firstn FILTER_LENGTH (msg_angle msg :: angle self))
        by congruence.
      destruct (Nat.eq_dec (counter self) BUFFER_LENGTH) as [E | E].
      * destruct (Hcommit E) as (d & _ & Hd).
        exists after_commit, (is_commit d result).
        split; [exact Hd |]. split; [apply after_commit_well_formed |].
        split; [right; now exists d |].
        split; [discriminate |]. intros _. split; [reflexivity |].
        rewrite E. reflexivity.
      * eexists. exists []. split; [exact (Hcount E) |].
        split; [| split; [now left | split; [discriminate |]]].
        -- unfold well_formed. cbn [buf counter ignore_inputs angle].
           rewrite length_removelast_cons by exact Hbuf.
           repeat split; [assumption | lia |].
           rewrite Hh, length_firstn. lia.
        -- intros _. split; [reflexivity |]. cbn [counter commits]. simpl. lia.
    + exists self, []. split; [unfold AudioCallback; now rewrite Hinit, Hvalid |].
      split; [repeat split; assumption |].
      split; [now left |]. split; [discriminate |].
      intros _. split; [exact Hinit |]. simpl. lia.
Qed.

Lemma commits_app (a b : list Event) : commits (a ++ b) = commits a + commits b.
Proof. unfold commits. now rewrite filter_app, length_app. Qed.

Lemma goals_app (a b : list Event) : goals (a ++ b) = goals a ++ goals b.
Proof. unfold goals. apply flat_map_app. Qed.

Lemma run_cons (self : Follower) (msg : Msg) (result : bool)
      (rest : list (Msg * bool)) (s1 : Follower) (e1 : list Event) :
  AudioCallback self msg result = Some (s1, e1) ->
  run self ((msg, result) :: rest)
  = match run s1 rest with
    | Some (s2, e2) => Some (s2, e1 ++ e2)
    | None => None
    end.
Proof.
  intros H. cbn [run]. rewrite H. cbn [bind fst snd].
  destruct (run s1 rest) as [[s2 e2] |]; reflexivity.
Qed.

Lemma run_app (a b : list (Msg * bool)) :
  forall self,
    run self (a ++ b)
    = match run self a with
      | Some (s1, e1) =>
          match run s1 b with
          | Some (s2, e2) => Some (s2, e1 ++ e2)
          | None => None
          end
      | None => None
      end.
Proof.
  induction a as [| [msg result] a IH]; intros self.
  - cbn [app run]. destruct (run self b) as [[s2 e2] |]; reflexivity.
  - cbn [app]. destruct (AudioCallback self msg result) as [[s1 e1] |] eqn:Hcb.
    + rewrite !(run_cons _ _ _ _ _ _ Hcb), IH.
      destruct (run s1 a) as [[s2 e2] |]; [| reflexivity].
      destruct (run s2 b) as [[s3 e3] |]; [| reflexivity].
      now rewrite app_assoc.
    + cbn [run]. rewrite Hcb. reflexivity.
Qed.

(** A run from a well-formed state: it returns, stays well-formed, its
    effects are whole commits, and the counter accounts for every valid
    message. *)
Lemma run_well_formed (inputs : list (Msg * bool)) :
  forall self,
    well_formed self ->
    exists self' evs,
      run self inputs = Some (self', evs) /\
      well_formed self' /\
      (exists cs : list (Z * bool),
          evs = concat (map (fun c => is_commit (fst c) (snd c)) cs) /\
          length cs = commits evs) /\
      (initializtion self = false ->
       initializtion self' = false /\
       31 * commits evs + counter self' = counter self + valid_messages inputs).
Proof.
  induction inputs as [| [msg result] rest IH]; intros self Hwf.
  - exists self, []. split; [reflexivity |]. split; [exact Hwf |].
    split; [exists []; split; reflexivity |].
    intros Hinit. split; [exact Hinit |].
    unfold commits, valid_messages. cbn [filter length]. lia.
  - destruct (AudioCallback_well_formed self msg result Hwf)
      as (s1 & e1 & Hcb & Hwf1 & He1 & Htrue & Hfalse).
    destruct (IH s1 Hwf1) as (s2 & e2 & Hrun & Hwf2 & (cs & Hcs & Hlen) & Hacc).
    exists s2, (e1 ++ e2).
    split; [rewrite (run_cons _ _ _ _ _ _ Hcb), Hrun; reflexivity |].
    split; [exact Hwf2 |]. split.
    + destruct He1 as [-> | (d & ->)].
      * exists cs. split; [exact Hcs | exact Hlen].
      * exists ((d, result) :: cs). cbn [map concat fst snd]. rewrite Hcs.
        split; [reflexivity |].
        rewrite commits_app. rewrite <- Hcs, <- Hlen. reflexivity.
    + intros Hinit. destruct (Hfalse Hinit) as [Hinit1 Hacc1].
      destruct (Hacc Hinit1) as [Hinit2 Hacc2]. split; [exact Hinit2 |].
      rewrite commits_app. unfold valid_messages in *. cbn [filter fst].
      destruct (msg_is_valid msg); cbn [length]; lia.
Qed.

(** X14.  No message sequence makes the callback raise.  Whatever
    messages a fresh [Follower] receives, every callback returns, and
    between callbacks the buffer has 30 entries, the counter is at most
    30, the history has at most 20 entries and [ignore_inputs] is
    false. *)
Theorem X14_run_never_raises :
  forall inputs : list (Msg * bool),
    exists self evs,
      run Follower_init inputs = Some (self, evs) /\
      length (buf self) = BUFFER_LENGTH /\
      counter self <= BUFFER_LENGTH /\
      ignore_inputs self = false /\
      length (angle self) <= FILTER_LENGTH.
Proof.
  intros inputs.
  destruct (run_well_formed inputs Follower_init Follower_init_well_formed)
    as (self & evs & Hrun & Hwf & _).
  exists self, evs. split; [exact Hrun | exact Hwf].
Qed.

(** X15.  The cadence of commits on any stream.  The first message only
    ends the initialization.  Of the messages after it, the invalid ones
    count for nothing and every 31st valid one commits: the number of
    goals sent is the number of valid messages divided by 31 and the
    counter is the remainder.  The effects are whole commits, each one a
    point published, a marker published, the goal sent and its result
    awaited, all for one direction. *)
Theorem X15_commit_every_31st_valid_message :
  forall (first : Msg * bool) (rest : list (Msg * bool)),
    exists self evs,
      run Follower_init (first :: rest) = Some (self, evs) /\
      commits evs = valid_messages rest / 31 /\
      counter self = valid_messages rest mod 31 /\
      exists cs : list (Z * bool),
        evs = concat (map (fun c => is_commit (fst c) (snd c)) cs) /\
        length cs = commits evs.
Proof.
  intros [msg result] rest.
  assert (Hcb : AudioCallback Follower_init msg result
                = Some (set_initializtion Follower_init false, [])) by reflexivity.
  destruct (run_well_formed rest (set_initializtion Follower_init false))
    as (self & evs & Hrun & Hwf & Hcs & Hacc).
  { exact Follower_init_well_formed. }
  destruct (Hacc eq_refl) as [_ Hsum]. cbn [counter set_initializtion Follower_init] in Hsum.
  destruct Hwf as (_ & Hc & _).
  exists self, evs.
  split; [rewrite (run_cons _ _ _ _ _ _ Hcb), Hrun; reflexivity |].
  unfold BUFFER_LENGTH in Hc.
  split; [| split; [| exact Hcs]].
  - apply (Nat.div_unique _ 31 _ (counter self)); lia.
  - apply (Nat.mod_unique _ 31 (commits evs)); lia.
Qed.

Lemma AudioCallback_keeps_initialized (self : Follower) (msg : Msg) (result : bool)
      (self' : Follower) (evs : list Event) :
  initializtion self = false ->
  AudioCallback self msg result = Some (self', evs) ->
  initializtion self' = false.
Proof.
  intros Hinit. unfold AudioCallback. rewrite Hinit.
  destruct (msg_is_valid msg && negb (ignore_inputs self));
    [| intros [= <- <-]; exact Hinit].
  destruct (TemporalMedian _ _ _) as [[m h] |]; [| discriminate]. cbn [bind].
  destruct (DownSample _ _) as [b |]; [| discriminate]. cbn [bind]. fields.
  destruct (counter self =? BUFFER_LENGTH).
  - destruct (GetMode _); [| discriminate]. cbn [bind].
    intros [= <- <-]. exact Hinit.
  - intros [= <- <-]. exact Hinit.
Qed.

Lemma run_skips_invalid (inputs : list (Msg * bool)) :
  forall self,
    initializtion self = false ->
    run self inputs = run self (filter (fun i => msg_is_valid (fst i)) inputs).
Proof.
  induction inputs as [| [msg result] rest IH]; intros self Hinit; [reflexivity |].
  cbn [filter fst]. destruct (msg_is_valid msg) eqn:Hvalid.
  - destruct (AudioCallback self msg result) as [[s1 e1] |] eqn:Hcb.
    + rewrite !(run_cons _ _ _ _ _ _ Hcb).
      rewrite (IH s1 (AudioCallback_keeps_initialized _ _ _ _ _ Hinit Hcb)).
      reflexivity.
    + cbn [run]. rewrite Hcb. reflexivity.
  - assert (Hcb : AudioCallback self msg result = Some (self, [])).
    { unfold AudioCallback. now rewrite Hinit, Hvalid. }
    rewrite (run_cons _ _ _ _ _ _ Hcb), <- (IH self Hinit).
    destruct (run self rest) as [[s2 e2] |]; reflexivity.
Qed.

(** X16.  Invalid messages are transparent.  Once the initialization
    message is consumed, a stream and the same stream without its invalid
    messages lead to the same state and the same effects. *)
Theorem X16_invalid_messages_transparent :
  forall (self : Follower) (inputs : list (Msg * bool)),
    initializtion self = false ->
    run self inputs = run self (filter (fun i => msg_is_valid (fst i)) inputs).
Proof. intros self inputs. apply run_skips_invalid. Qed.

Lemma AudioCallback_result_unused (self : Follower) (msg : Msg) (r r' : bool) :
  observe (AudioCallback self msg r) = observe (AudioCallback self msg r').
Proof.
  unfold AudioCallback.
  destruct (initializtion self); [reflexivity |].
  destruct (msg_is_valid msg && negb (ignore_inputs self)); [| reflexivity].
  destruct (TemporalMedian _ _ _) as [[m h] |]; [| reflexivity]. cbn [bind].
  destruct (DownSample _ _) as [b |]; [| reflexivity]. cbn [bind]. fields.
  destruct (counter self =? BUFFER_LENGTH); [| reflexivity].
  destruct (GetMode _); reflexivity.
Qed.

Lemma run_result_unused (inputs : list (Msg * bool)) :
  forall inputs' self,
    map fst inputs = map fst inputs' ->
    observe (run self inputs) = observe (run self inputs').
Proof.
  induction inputs as [| [msg r] rest IH]; intros [| [msg' r'] rest'] self Hmap;
    try discriminate; [reflexivity |].
  cbn [map fst] in Hmap. injection Hmap as <- Hrest.
  pose proof (AudioCallback_result_unused self msg r r') as Hcb.
  destruct (AudioCallback self msg r) as [[s1 e1] |] eqn:H1;
    destruct (AudioCallback self msg r') as [[s1' e1'] |] eqn:H2;
    try discriminate.
  - cbn [observe] in Hcb. injection Hcb as <- Hg.
    rewrite (run_cons _ _ _ _ _ _ H1), (run_cons _ _ _ _ _ _ H2).
    specialize (IH rest' s1 Hrest).
    destruct (run s1 rest) as [[s2 e2] |];
      destruct (run s1 rest') as [[s2' e2'] |]; try discriminate; [| reflexivity].
    cbn [observe] in *. injection IH as <- Hg2.
    now rewrite !goals_app, Hg, Hg2.
  - cbn [run]. rewrite H1, H2. reflexivity.
Qed.

(** X17.  The actuator's result is only logged.  Two runs over the same
    messages that differ in what the actuator reports go through the same
    states and send the same goals. *)
Theorem X17_actuator_result_unused :
  forall (self : Follower) (inputs inputs' : list (Msg * bool)),
    map fst inputs = map fst inputs' ->
    observe (run self inputs) = observe (run self inputs').
Proof. intros self inputs inputs'. apply run_result_unused. Qed.

(** ** A constant stream *)

Lemma firstn_repeat_le {A : Type} (v : A) (n m : nat) :
  n <= m -> firstn n (repeat v m) = repeat v n.
Proof.
  revert m. induction n as [| n IH]; intros m Hnm; [reflexivity |].
  destruct m as [| m]; [lia |]. simpl. f_equal. apply IH. lia.
Qed.

Lemma existsb_isnan_repeat (v : float) (j : nat) :
  F64.isnan v = false -> existsb F64.isnan (repeat v j) = false.
Proof. intros Hv. induction j as [| j IH]; [reflexivity |]. simpl. now rewrite Hv. Qed.

(** A window that starts with at least two entries [v] and ends with at
    most one other entry has a median that converts to the same integer
    as [v]. *)
Lemma median_settled (v : float) (j : nat) (t : list float) :
  F64.isnan v = false -> Np.mean2 v v = v -> existsb F64.isnan t = false ->
  2 <= j -> length t <= 1 ->
  Np.astype_int (Np.median (repeat v j ++ t)) = Np.astype_int v.
Proof.
  intros Hv Hmean Ht Hj Hlen.
  destruct (median_majority (repeat v j ++ t) v) as (a & b & Ha & Hb & ->).
  { rewrite existsb_app, Ht, existsb_isnan_repeat by exact Hv. reflexivity. }
  { rewrite length_app, repeat_length, occurrences_app, occurrences_repeat. lia. }
  destruct (rank_eq a v Ha) as [Ea | (sa & sv & Ea & Ev)];
    destruct (rank_eq b v Hb) as [Eb | (sb & sv' & Eb & Ev')];
    destruct (Nat.even _); subst; try rewrite Hmean; try reflexivity;
    try (destruct sa); try (destruct sb); try (destruct sv); try (destruct sv');
    try discriminate; reflexivity.
Qed.

(** Once the value [v] has been pushed on a history of at most one entry,
    every further push of [v] returns a value that converts to the same
    integer as [v]. *)
Lemma push_all_settled (v : float) (xs : list float) :
  F64.isnan v = false -> Np.mean2 v v = v ->
  forall j t outs h',
    Forall (eq v) xs ->
    existsb F64.isnan t = false ->
    1 <= j -> length t <= 1 -> j + length t <= FILTER_LENGTH ->
    push_all xs (repeat v j ++ t) FILTER_LENGTH = Some (outs, h') ->
    Forall (fun m => Np.astype_int m = Np.astype_int v) outs.
Proof.
  intros Hv Hmean.
  induction xs as [| x xs IH]; intros j t outs h' Hxs Hnan Hj Ht Hlen Hrun.
  - simpl in Hrun. injection Hrun as <- _. constructor.
  - inversion Hxs as [| x' xs' Hx Hxs']; subst x' xs' x.
    cbn [push_all] in Hrun.
    rewrite TemporalMedian_window in Hrun
      by (unfold FILTER_LENGTH in *; try lia;
          rewrite length_app, repeat_length; lia).
    cbn [bind fst snd] in Hrun.
    assert (Hnext : exists j1 t1,
               firstn FILTER_LENGTH (v :: repeat v j ++ t) = repeat v j1 ++ t1 /\
               existsb F64.isnan t1 = false /\
               2 <= j1 /\ length t1 <= 1 /\ j1 + length t1 <= FILTER_LENGTH).
    { change (v :: repeat v j ++ t) with (repeat v (S j) ++ t).
      destruct (Nat.le_gt_cases (S j + length t) FILTER_LENGTH) as [Hfit | Hfull].
      - exists (S j), t. rewrite firstn_all2
          by (rewrite length_app, repeat_length; lia).
        repeat split; try assumption; lia.
      - exists FILTER_LENGTH, []. rewrite firstn_app, repeat_length.
        replace (FILTER_LENGTH - S j) with 0 by lia.
        rewrite firstn_repeat_le by lia. cbn [firstn].
        unfold FILTER_LENGTH. repeat split; simpl; lia. }
    destruct Hnext as (j1 & t1 & Hw & Hnan1 & Hj1 & Ht1 & Hlen1).
    rewrite Hw in Hrun.
    destruct (push_all xs (repeat v j1 ++ t1) FILTER_LENGTH) as [[o2 h2] |] eqn:E2;
      [| discriminate].
    cbn [bind fst snd] in Hrun. injection Hrun as <- _.
    constructor; [now apply median_settled |].
    apply (IH j1 t1 o2 h2); try assumption; lia.
Qed.

Lemma GetMode_unanimous (z : Z) (buf : list Z) :
  buf <> [] -> Forall (eq z) buf -> GetMode buf = Some z.
Proof.
  intros Hne Hall. destruct (GetMode_spec buf Hne) as (m & Hm & Hin & _).
  rewrite Hm. f_equal. rewrite Forall_forall in Hall. symmetry. now apply Hall.
Qed.

(** From a state with an empty buffer count and at most one entry in the
    history, 31 valid messages of one angle [v] end in one commit, to the
    direction [v] converted to an integer. *)
Lemma constant_stream_commit (self : Follower) (v : float)
      (body : list (Msg * bool)) (msg : Msg) (r : bool) :
  F64.isnan v = false -> Np.mean2 v v = v ->
  initializtion self = false ->
  ignore_inputs self = false ->
  length (buf self) = BUFFER_LENGTH ->
  counter self = 0 ->
  length (angle self) <= 1 ->
  existsb F64.isnan (angle self) = false ->
  length body = BUFFER_LENGTH ->
  Forall (fun i => msg_is_valid (fst i) = true /\ msg_angle (fst i) = v) body ->
  msg_is_valid msg = true ->
  msg_angle msg = v ->
  run self (body ++ [(msg, r)]) = Some (after_commit, is_commit (Np.astype_int v) r).
Proof.
  intros Hv Hmean Hinit Hign Hlen Hc Hang Hnan Hn Hbody Hvalid Hangle.
  assert (Hall : Forall (fun i => msg_is_valid (fst i) = true) body).
  { eapply Forall_impl; [| exact Hbody]. intros i Hi. apply Hi. }
  assert (Hvs : Forall (eq v) (map (fun i => msg_angle (fst i)) body)).
  { apply Forall_map. eapply Forall_impl; [| exact Hbody].
    intros i Hi. symmetry. apply Hi. }
  destruct (run_quiet body self Hinit Hign Hlen) as (s30 & Hrun & H1 & H2 & H3 & H4);
    [lia |].
  specialize (H4 Hall).
  destruct (run_thirty_buffer body self Hinit Hign Hlen Hc Hn Hall)
    as (s30' & meds & Hrun' & Hpush & Hb).
  assert (s30' = s30) by congruence. subst s30'.
  assert (Hbuf : buf s30 <> []).
  { intros E. rewrite E in H3. discriminate. }
  destruct (AudioCallback_processed s30 msg r H1 Hvalid H2 Hbuf)
    as (m & h & Hm & _ & Hcommit).
  destruct Hcommit as (d & Hd & Hcb); [lia |].
  enough (Hdv : d = Np.astype_int v).
  { rewrite run_app, Hrun. cbn [run]. rewrite Hcb, Hdv. reflexivity. }
  (* the medians *)
  rewrite Hangle in Hm.
  pose proof (push_all_snoc _ _ _ _ _ _ _ _ Hpush Hm) as Hsnoc.
  destruct (map (fun i => msg_angle (fst i)) body) as [| x xs] eqn:Emap.
  { apply (f_equal (@length float)) in Emap. rewrite length_map, Hn in Emap.
    discriminate. }
  inversion Hvs as [| x' xs' Hx Hxs]; subst x' xs' x.
  cbn [app push_all] in Hsnoc.
  rewrite TemporalMedian_window in Hsnoc by (unfold FILTER_LENGTH; lia).
  cbn [bind fst snd] in Hsnoc.
  rewrite (firstn_all2 (n := FILTER_LENGTH) (v :: angle self)) in Hsnoc
    by (unfold FILTER_LENGTH; simpl; lia).
  destruct (push_all (xs ++ [v]) (v :: angle self) FILTER_LENGTH)
    as [[outs h2] |] eqn:Erest; [| discriminate].
  cbn [bind fst snd] in Hsnoc.
  assert (Hsettled : Forall (fun f => Np.astype_int f = Np.astype_int v) outs).
  { apply (push_all_settled v (xs ++ [v]) Hv Hmean 1 (angle self) outs h2).
    - apply Forall_app. split; [exact Hxs | repeat constructor].
    - exact Hnan.
    - lia.
    - exact Hang.
    - unfold FILTER_LENGTH. lia.
    - exact Erest. }
  assert (Hmeds : meds ++ [m] = Np.median (v :: angle self) :: outs) by congruence.
  destruct meds as [| m1 meds'].
  { exfalso. apply push_all_length in Hpush. discriminate. }
  cbn [app] in Hmeds. injection Hmeds as _ Houts.
  (* the buffer of the vote *)
  assert (Hvote : Forall (fun f => Np.astype_int f = Np.astype_int v)
                         (m :: removelast (buf s30))).
  { rewrite Hb. cbn [rev]. rewrite removelast_last.
    rewrite <- Houts in Hsettled. apply Forall_app in Hsettled.
    destruct Hsettled as [Hmeds' Hm'].
    constructor; [now inversion Hm' |].
    apply Forall_rev. exact Hmeds'. }
  enough (Hz : GetMode (map Np.astype_int (m :: removelast (buf s30)))
               = Some (Np.astype_int v)) by congruence.
  apply GetMode_unanimous; [discriminate |].
  apply Forall_map. eapply Forall_impl; [| exact Hvote].
  intros f Hf. symmetry. exact Hf.
Qed.

(** X18.  A constant stream.  Let [v] be an angle that is not nan and for
    which the binary64 mean of [v] with itself is [v] (every finite [v]
    whose double does not overflow, and the infinities).  A fresh
    [Follower] that receives its initialization message and then 31 valid
    messages of angle [v] commits exactly once, with the last of them, to
    the direction [astype(int)] gives for [v]; the zero in the startup
    history does not change the vote.  The same 31 messages after a
    commit give the same commit. *)
Theorem X18_constant_stream_commits_to_its_angle :
  forall (v : float) (first : Msg * bool) (body : list (Msg * bool))
         (msg : Msg) (r : bool),
    F64.isnan v = false ->
    Np.mean2 v v = v ->
    length body = BUFFER_LENGTH ->
    Forall (fun i => msg_is_valid (fst i) = true /\ msg_angle (fst i) = v) body ->
    msg_is_valid msg = true ->
    msg_angle msg = v ->
    run Follower_init (first :: body ++ [(msg, r)])
    = Some (after_commit, is_commit (Np.astype_int v) r) /\
    run after_commit (body ++ [(msg, r)])
    = Some (after_commit, is_commit (Np.astype_int v) r).
Proof.
  intros v [m0 r0] body msg r Hv Hmean Hn Hbody Hvalid Hangle. split.
  - assert (Hcb : AudioCallback Follower_init m0 r0
                  = Some (set_initializtion Follower_init false, [])) by reflexivity.
    rewrite (run_cons _ _ _ _ _ _ Hcb).
    rewrite (constant_stream_commit (set_initializtion Follower_init false) v
               body msg r); try assumption; try reflexivity; simpl; lia.
  - apply constant_stream_commit; try assumption; try reflexivity; simpl; lia.
Qed.

(** X22.  The commanded direction is a buffered value, converted.  The
    target of a commit is the point of a direction [d] that
    [astype(int)] gives for the filtered value of the committing message
    or for one of the buffered values other than the oldest; [d] is a
    64-bit integer. *)
Theorem X22_direction_is_a_buffered_value :
  forall (self : Follower) (msg : Msg) (result : bool)
         (self' : Follower) (evs : list Event) (target : Point),
    AudioCallback self msg result = Some (self', evs) ->
    In (SendGoal target) evs ->
    exists (m : float) (h : list float) (f : float),
      TemporalMedian (msg_angle msg) (angle self) FILTER_LENGTH = Some (m, h) /\
      In f (m :: removelast (buf self)) /\
      target = goal_point (Np.astype_int f) /\
      (Np.INT64_MIN <= Np.astype_int f < 2 ^ 63)%Z.
Proof.
  intros self msg result self' evs target Hcb Hin.
  destruct (AudioCallback_commit_inv self msg result self' evs Hcb
              (In_SendGoal_nonempty target evs Hin))
    as (_ & _ & _ & _ & m & h & b & d & Hm & Hb & Hd & _ & ->).
  assert (target = goal_point d) as ->.
  { simpl in Hin. destruct Hin as [H | [H | [H | [H | []]]]]; congruence. }
  assert (Hne : buf self <> []).
  { intros E. rewrite E in Hb. discriminate. }
  rewrite (DownSample_cons m _ Hne) in Hb. injection Hb as <-.
  destruct (GetMode_spec _ (map_astype_int_nonempty m (removelast (buf self))))
    as (d' & Hd' & Hind & _).
  assert (d' = d) by congruence. subst d'.
  apply in_map_iff in Hind. destruct Hind as (f & <- & Hf).
  exists m, h, f. repeat split; try assumption; apply astype_int_int64.
Qed.

(** * Further properties of the callbacks under the lock *)

Lemma delivered_app (a b : list Label) :
  delivered (a ++ b) = delivered a ++ delivered b.
Proof.
  induction a as [| [msg | | r] a IH]; cbn [app delivered]; [reflexivity | | |];
    now rewrite IH.
Qed.

Lemma run_snoc (done : list (Msg * bool)) (msg : Msg) (result : bool)
      (f0 f1 : Follower) (t0 evs : list Event) :
  run Follower_init done = Some (f0, t0) ->
  AudioCallback f0 msg result = Some (f1, evs) ->
  run Follower_init (done ++ [(msg, result)]) = Some (f1, t0 ++ evs).
Proof.
  intros Hdone Hcb. rewrite run_app, Hdone, (run_cons _ _ _ _ _ _ Hcb).
  cbn [run]. now rewrite app_nil_r.
Qed.

(** The callback that gets the lock leaves the others waiting. *)
Lemma remove_nth_Permutation {A : Type} (l : list A) (i : nat) (x : A) :
  nth_error l i = Some x -> Permutation l (x :: remove_nth i l).
Proof.
  revert i. induction l as [| a l IH]; intros [| i] H; try discriminate.
  - injection H as ->. apply Permutation_refl.
  - change (remove_nth (S i) (a :: l)) with (a :: remove_nth i l).
    apply perm_trans with (a :: x :: remove_nth i l).
    + apply perm_skip, IH, H.
    + apply perm_swap.
Qed.

Lemma remove_nth_length {A : Type} (l : list A) (i : nat) (x : A) :
  nth_error l i = Some x -> S (length (remove_nth i l)) = length l.
Proof.
  intros H. apply remove_nth_Permutation in H.
  apply Permutation_length in H. simpl in H. lia.
Qed.

Lemma step_serialized (msgs : list Msg) (s s' : System) (l : Label) :
  serialized msgs s -> step s l = Next s' ->
  serialized (msgs ++ delivered [l]) s'.
Proof.
  unfold serialized. intros Hs Hstep.
  destruct l as [msg | i | result]; cbn [step delivered] in *.
  - injection Hstep as <-. cbn [lock_held waiting follower trace].
    destruct (lock_held s).
    + destruct Hs as (done & m & f0 & t0 & evs & Hmsgs & Hrun & Henter & Htrace).
      exists done, m, f0, t0, evs. repeat split; try assumption.
      rewrite app_comm_cons, app_assoc. now apply Permutation_app_tail.
    + destruct Hs as (done & Hmsgs & Hrun). exists done.
      split; [| exact Hrun]. rewrite app_assoc. now apply Permutation_app_tail.
  - rewrite app_nil_r.
    destruct (lock_held s); [discriminate |].
    destruct Hs as (done & Hmsgs & Hrun).
    destruct (nth_error (waiting s) i) as [msg |] eqn:Hi; [| discriminate].
    pose proof (remove_nth_Permutation _ _ _ Hi) as Hperm.
    destruct (AudioCallback_enter (follower s) msg) as [[[f1 | f1] evs] |] eqn:Henter;
      [| | discriminate]; injection Hstep as <-;
      cbn [lock_held waiting follower trace].
    + exists (done ++ [(msg, false)]). split.
      * rewrite Hmsgs, map_app, <- app_assoc. cbn [map fst app].
        now apply Permutation_app_head.
      * apply (run_snoc done msg false (follower s)); [exact Hrun |].
        rewrite AudioCallback_enter_then_wait, Henter. reflexivity.
    + exists done, msg, (follower s), (trace s), evs. repeat split; try assumption.
      rewrite Hmsgs. now apply Permutation_app_head.
  - rewrite app_nil_r.
    destruct (lock_held s); [| discriminate].
    destruct Hs as (done & m & f0 & t0 & evs & Hmsgs & Hrun & Henter & Htrace).
    destruct (SetPointHead_wait (follower s) result) as [f1 waited] eqn:Hwait.
    injection Hstep as <-. cbn [lock_held waiting follower trace].
    exists (done ++ [(m, result)]). split.
    + rewrite Hmsgs, map_app, <- app_assoc. reflexivity.
    + rewrite Htrace, <- app_assoc.
      apply (run_snoc done m result f0); [exact Hrun |].
      rewrite AudioCallback_enter_then_wait, Henter, Hwait. reflexivity.
Qed.

Lemma exec_serialized (ls : list Label) :
  forall msgs s s',
    serialized msgs s -> exec s ls = Next s' ->
    serialized (msgs ++ delivered ls) s'.
Proof.
  induction ls as [| l ls IH]; intros msgs s s' Hs Hexec.
  - simpl in Hexec. injection Hexec as <-. simpl. now rewrite app_nil_r.
  - cbn [exec] in Hexec. destruct (step s l) as [s1 | |] eqn:Hstep; try discriminate.
    change (l :: ls) with ([l] ++ ls). rewrite delivered_app, app_assoc.
    apply (IH _ s1 s'); [| exact Hexec].
    exact (step_serialized msgs s s1 l Hs Hstep).
Qed.

Lemma System_init_serialized : serialized [] System_init.
Proof. unfold serialized. simpl. exists []. split; reflexivity. Qed.

(** X19.  The lock makes the callbacks atomic.  Whatever way deliveries,
    callbacks and actuator returns interleave, and whichever waiting
    callback each release of the lock wakes: once a pending actuator call
    has returned, the controller is in the state, and has caused the
    effects, of whole callbacks run one after the other on some of the
    delivered messages, in one order.  Those messages together with the
    ones still waiting are the messages delivered, each one once. *)
Theorem X19_callbacks_are_serialized :
  forall (ls : list Label) (s : System) (result : bool),
    exec System_init ls = Next s ->
    exists done : list (Msg * bool),
      Permutation (delivered ls) (map fst done ++ waiting (settle result s)) /\
      run Follower_init done
      = Some (follower (settle result s), trace (settle result s)) /\
      lock_held (settle result s) = false.
Proof.
  intros ls s result Hexec.
  pose proof (exec_serialized ls [] System_init s System_init_serialized Hexec) as Hs.
  cbn [app] in Hs. unfold settle.
  destruct (step s (ActuatorDone result)) as [s1 | |] eqn:Hstep.
  - pose proof (step_serialized _ s s1 _ Hs Hstep) as Hs1.
    cbn [delivered] in Hs1. rewrite app_nil_r in Hs1.
    assert (Hfree : lock_held s1 = false).
    { cbn [step] in Hstep. destruct (lock_held s); [| discriminate].
      destruct (SetPointHead_wait (follower s) result). now injection Hstep as <-. }
    unfold serialized in Hs1. rewrite Hfree in Hs1.
    destruct Hs1 as (done & Hmsgs & Hrun). exists done. repeat split; assumption.
  - assert (Hfree : lock_held s = false).
    { cbn [step] in Hstep. destruct (lock_held s); [| reflexivity].
      destruct (SetPointHead_wait (follower s) result). discriminate. }
    unfold serialized in Hs. rewrite Hfree in Hs.
    destruct Hs as (done & Hmsgs & Hrun). exists done. repeat split; assumption.
  - cbn [step] in Hstep. destruct (lock_held s); [| discriminate].
    destruct (SetPointHead_wait (follower s) result). discriminate.
Qed.

(** A state the messages were serialized into with the lock free is
    well-formed, so the next callback returns. *)
Lemma serialized_free_well_formed (msgs : list Msg) (s : System) :
  serialized msgs s -> lock_held s = false -> well_formed (follower s).
Proof.
  unfold serialized. intros Hs Hfree. rewrite Hfree in Hs.
  destruct Hs as (done & _ & Hrun).
  destruct (run_well_formed done Follower_init Follower_init_well_formed)
    as (self & evs & Hrun' & Hwf & _).
  congruence.
Qed.

Lemma AudioCallback_enter_returns (self : Follower) (msg : Msg) :
  well_formed self -> AudioCallback_enter self msg <> None.
Proof.
  intros Hwf Hnone.
  destruct (AudioCallback_well_formed self msg false Hwf) as (s1 & e1 & Hcb & _).
  rewrite AudioCallback_enter_then_wait, Hnone in Hcb. discriminate.
Qed.

Lemma exec_not_raised (ls : list Label) :
  forall msgs s, serialized msgs s -> exec s ls <> Raised.
Proof.
  induction ls as [| l ls IH]; intros msgs s Hs; [discriminate |].
  cbn [exec]. destruct (step s l) as [s1 | |] eqn:Hstep.
  - apply (IH (msgs ++ delivered [l]) s1).
    exact (step_serialized msgs s s1 l Hs Hstep).
  - discriminate.
  - exfalso. destruct l as [msg | i | result]; cbn [step] in Hstep.
    + discriminate.
    + destruct (lock_held s) eqn:Hfree; [discriminate |].
      destruct (nth_error (waiting s) i) as [msg |]; [| discriminate].
      pose proof (AudioCallback_enter_returns (follower s) msg
                    (serialized_free_well_formed msgs s Hs Hfree)) as Hret.
      destruct (AudioCallback_enter (follower s) msg) as [[[f1 | f1] evs] |];
        [discriminate | discriminate | contradiction].
    + destruct (lock_held s); [| discriminate].
      destruct (SetPointHead_wait (follower s) result). discriminate.
Qed.

(** X20.  The filter pipeline raises nothing under the lock.  Whatever
    steps are taken from the start, in whatever order the waiting
    callbacks get the lock, no callback meets the [IndexError] of
    [DownSample] on an empty buffer or the [ValueError] of [GetMode] on
    an empty vote: the buffer a callback finds always has
    [BUFFER_LENGTH] entries.  (An exception of a publisher, of the
    transform listener or of the action client is outside the model.) *)
Theorem X20_filter_pipeline_never_raises_under_lock :
  forall ls : list Label,
    exec System_init ls <> Raised /\
    (forall s, exec System_init ls = Next s ->
               lock_held s = false -> length (buf (follower s)) = BUFFER_LENGTH).
Proof.
  intros ls. split.
  - exact (exec_not_raised ls [] System_init System_init_serialized).
  - intros s Hexec Hfree.
    pose proof (exec_serialized ls [] System_init s System_init_serialized Hexec)
      as Hs.
    apply (serialized_free_well_formed _ s Hs Hfree).
Qed.

Lemma delivered_none (ls : list Label) :
  Forall (fun l => is_Deliver l = false) ls -> delivered ls = [].
Proof.
  induction 1 as [| l ls Hl _ IH]; [reflexivity |].
  destruct l; [discriminate | exact IH | exact IH].
Qed.

(** With the lock free, every waiting callback can take it. *)
Lemma Acquire_enabled (msgs : list Msg) (s : System) (i : nat) (msg : Msg) :
  serialized msgs s -> lock_held s = false ->
  nth_error (waiting s) i = Some msg ->
  exists s', step s (Acquire i) = Next s' /\
             waiting s' = remove_nth i (waiting s).
Proof.
  intros Hs Hfree Hi.
  pose proof (AudioCallback_enter_returns (follower s) msg
                (serialized_free_well_formed msgs s Hs Hfree)) as Hret.
  cbn [step]. rewrite Hfree, Hi.
  destruct (AudioCallback_enter (follower s) msg) as [[[f1 | f1] evs] |];
    [| | contradiction]; eexists; split; reflexivity.
Qed.

(** With the lock held, the return of the actuator call releases it. *)
Lemma ActuatorDone_enabled (s : System) (result : bool) :
  lock_held s = true ->
  exists s', step s (ActuatorDone result) = Next s' /\
             lock_held s' = false /\ waiting s' = waiting s /\
             ignore_inputs (follower s') = false /\
             counter (follower s') = 0 /\
             angle (follower s') = [] /\
             buf (follower s') = Np.zeros BUFFER_LENGTH.
Proof.
  intros Hheld. cbn [step]. rewrite Hheld.
  eexists. split; [reflexivity |]. repeat split.
Qed.

(** With the lock free, the waiting callbacks can all run, the oldest
    first, when every actuator call returns. *)
Lemma drain_free (result : bool) (k : nat) :
  forall msgs s,
    serialized msgs s -> lock_held s = false -> length (waiting s) = k ->
    exists ls' s',
      Forall (fun l => is_Deliver l = false) ls' /\
      exec s ls' = Next s' /\
      waiting s' = [] /\ lock_held s' = false /\ serialized msgs s'.
Proof.
  induction k as [| k IH]; intros msgs s Hs Hfree Hk.
  - exists [], s. repeat split; try assumption; [constructor |].
    destruct (waiting s); [reflexivity | discriminate].
  - destruct (waiting s) as [| msg rest] eqn:Hw; [discriminate |].
    injection Hk as Hk.
    assert (Hi : nth_error (waiting s) 0 = Some msg) by now rewrite Hw.
    destruct (Acquire_enabled msgs s 0 msg Hs Hfree Hi) as (s1 & Hstep & Hw1).
    rewrite Hw in Hw1. change (remove_nth 0 (msg :: rest)) with rest in Hw1.
    pose proof (step_serialized msgs s s1 (Acquire 0) Hs Hstep) as Hs1.
    cbn [delivered] in Hs1. rewrite app_nil_r in Hs1.
    destruct (lock_held s1) eqn:Hheld.
    + destruct (ActuatorDone_enabled s1 result Hheld)
        as (s2 & Hstep2 & Hfree2 & Hw2 & _).
      pose proof (step_serialized msgs s1 s2 _ Hs1 Hstep2) as Hs2.
      cbn [delivered] in Hs2. rewrite app_nil_r in Hs2.
      destruct (IH msgs s2 Hs2 Hfree2 ltac:(congruence))
        as (ls' & s' & Hnd & Hexec & Hrest).
      exists (Acquire 0 :: ActuatorDone result :: ls'), s'.
      split; [repeat constructor; exact Hnd |].
      split; [cbn [exec]; rewrite Hstep, Hstep2; exact Hexec | exact Hrest].
    + destruct (IH msgs s1 Hs1 Hheld ltac:(congruence))
        as (ls' & s' & Hnd & Hexec & Hrest).
      exists (Acquire 0 :: ls'), s'.
      split; [constructor; [reflexivity | exact Hnd] |].
      split; [cbn [exec]; rewrite Hstep; exact Hexec | exact Hrest].
Qed.

(** X21.  The lock does not deadlock the callbacks, and a message
    delivered during a commit is not lost.  In every state the callbacks
    can reach: with the lock free, each waiting callback, whichever the
    lock wakes, can take it, and its critical section ends (in the
    release of the lock or in the wait for the actuator) without an
    exception of the filter pipeline; with the lock held, the one thing
    waited for is the actuator, and when [wait_for_result] returns the
    lock is released with the flag clear and the filter reset, the
    waiting callbacks still waiting.  So, provided every wait for the
    actuator returns, there is a way for the waiting callbacks to run
    until none is left, and then the state and the effects are those of
    the callbacks of all the delivered messages, each run once.  (That
    [wait_for_result] returns, and that the lock wakes every waiting
    thread in the end, is up to the actuator and to the lock.) *)
Theorem X21_lock_does_not_deadlock :
  forall (ls : list Label) (s : System),
    exec System_init ls = Next s ->
    (lock_held s = false ->
     forall i msg, nth_error (waiting s) i = Some msg ->
       exists s', step s (Acquire i) = Next s' /\
                  waiting s' = remove_nth i (waiting s)) /\
    (lock_held s = true ->
     forall result,
       exists s', step s (ActuatorDone result) = Next s' /\
                  lock_held s' = false /\ waiting s' = waiting s /\
                  ignore_inputs (follower s') = false /\
                  counter (follower s') = 0 /\
                  angle (follower s') = [] /\
                  buf (follower s') = Np.zeros BUFFER_LENGTH) /\
    (exists (ls' : list Label) (s' : System) (done : list (Msg * bool)),
        Forall (fun l => is_Deliver l = false) ls' /\
        exec s ls' = Next s' /\
        waiting s' = [] /\
        lock_held s' = false /\
        Permutation (delivered ls) (map fst done) /\
        run Follower_init done = Some (follower s', trace s')).
Proof.
  intros ls s Hexec.
  pose proof (exec_serialized ls [] System_init s System_init_serialized Hexec) as Hs.
  cbn [app] in Hs.
  split; [| split].
  - intros Hfree i msg Hi. exact (Acquire_enabled _ s i msg Hs Hfree Hi).
  - intros Hheld result. exact (ActuatorDone_enabled s result Hheld).
  - set (result := true).
    assert (Hfinish : forall ls' s',
               Forall (fun l => is_Deliver l = false) ls' ->
               exec s ls' = Next s' ->
               waiting s' = [] -> lock_held s' = false ->
               serialized (delivered ls) s' ->
               exists (ls' : list Label) (s' : System) (done : list (Msg * bool)),
                 Forall (fun l => is_Deliver l = false) ls' /\
                 exec s ls' = Next s' /\
                 waiting s' = [] /\ lock_held s' = false /\
                 Permutation (delivered ls) (map fst done) /\
                 run Follower_init done = Some (follower s', trace s')).
    { intros ls' s' Hnd Hex Hw Hfree Hs'. unfold serialized in Hs'.
      rewrite Hfree, Hw in Hs'. destruct Hs' as (done & Hmsgs & Hrun).
      rewrite app_nil_r in Hmsgs.
      exists ls', s', done. repeat split; auto. }
    destruct (lock_held s) eqn:Hlock.
    + destruct (ActuatorDone_enabled s result Hlock)
        as (s1 & Hstep & Hfree1 & Hw1 & _).
      pose proof (step_serialized _ s s1 _ Hs Hstep) as Hs1.
      cbn [delivered] in Hs1. rewrite app_nil_r in Hs1.
      destruct (drain_free result (length (waiting s1)) _ s1 Hs1 Hfree1 eq_refl)
        as (ls' & s' & Hnd & Hex & Hw & Hfree & Hs').
      apply (Hfinish (ActuatorDone result :: ls') s'); try assumption.
      * constructor; [reflexivity | exact Hnd].
      * cbn [exec]. rewrite Hstep. exact Hex.
    + destruct (drain_free result (length (waiting s)) _ s Hs Hlock eq_refl)
        as (ls' & s' & Hnd & Hex & Hw & Hfree & Hs').
      apply (Hfinish ls' s'); assumption.
Qed.

End Controller.

(** * Closed instances

    The properties above hold for every [np_cos] and [np_sin].  The
    instances below are computed with [cos_sample] and [sin_sample] in
    their place. *)

(** C4 fails as stated: after a commit, the messages 1 and 2 are filtered
    to 1 and 1.5, and the newest buffer element is then 1.5, which is the
    filtered value itself and no integer. *)
Lemma C4_counterexample :
  exists self m h self' q,
    run cos_sample sin_sample after_commit [(mkMsg (F64.of_int 1) true, true)]
    = Some (self, []) /\
    TemporalMedian (F64.of_int 2) (angle self) FILTER_LENGTH = Some (m, h) /\
    AudioCallback cos_sample sin_sample self (mkMsg (F64.of_int 2) true) true
    = Some (self', []) /\
    hd F64.nan (buf self') = m /\
    m = F64.dyadic 3 (-1) /\
    F64.value (hd F64.nan (buf self')) = Some q /\
    forall z : Z, ~ (q == inject_Z z)%Q.
Proof.
  eexists. eexists. eexists. eexists. eexists.
  split; [vm_compute; reflexivity |].
  split; [vm_compute; reflexivity |].
  split; [vm_compute; reflexivity |].
  split; [reflexivity |]. split; [reflexivity |].
  split; [vm_compute; reflexivity |].
  intros z. unfold Qeq, inject_Z. cbn [Qnum Qden]. lia.
Qed.

Lemma C4_buffer_witness :
  let v := F64.dyadic (-5) (-1) in
  let msg := mkMsg v true in
  let full := {| angle := repeat v 20; buf := repeat v 30; counter := 30;
                 ignore_inputs := false; initializtion := false |} in
  run cos_sample sin_sample after_commit (repeat (msg, true) 30) = Some (full, []) /\
  AudioCallback cos_sample sin_sample full msg true
  = Some (after_commit, is_commit cos_sample sin_sample (-2) true) /\
  exists m h,
    TemporalMedian (msg_angle msg) (angle full) FILTER_LENGTH = Some (m, h) /\
    (counter full <> BUFFER_LENGTH ->
     exists self',
       AudioCallback cos_sample sin_sample full msg true = Some (self', []) /\
       buf self' = m :: removelast (buf full) /\
       hd F64.nan (buf self') = m /\
       counter self' = counter full + 1) /\
    (counter full = BUFFER_LENGTH ->
     exists d,
       GetMode (map Np.astype_int (m :: removelast (buf full))) = Some d /\
       AudioCallback cos_sample sin_sample full msg true
       = Some (after_commit, is_commit cos_sample sin_sample d true)) /\
    (forall (f : float) (q : Q),
        F64.value f = Some q ->
        (inject_Z Np.INT64_MIN <= q < inject_Z (2 ^ 63))%Q ->
        ((0 <= q)%Q ->
         (inject_Z (Np.astype_int f) <= q < inject_Z (Np.astype_int f) + 1)%Q) /\
        ((q <= 0)%Q ->
         (q <= inject_Z (Np.astype_int f) < q + 1)%Q)).
Proof.
  intros v msg full.
  split; [vm_compute; reflexivity |].
  split; [vm_compute; reflexivity |].
  apply (C4_buffer_holds_filtered_values cos_sample sin_sample full msg true).
  - reflexivity.
  - reflexivity.
  - reflexivity.
  - discriminate.
Defined.

Lemma C7_reset_witness :
  let v := F64.of_int 90 in
  let msg := mkMsg v true in
  let full := {| angle := repeat v 20; buf := repeat v 30; counter := 30;
                 ignore_inputs := false; initializtion := false |} in
  let evs := is_commit cos_sample sin_sample 90 false in
  run cos_sample sin_sample after_commit (repeat (msg, true) 30) = Some (full, []) /\
  AudioCallback cos_sample sin_sample full msg false = Some (after_commit, evs) /\
  angle after_commit = [] /\
  buf after_commit = Np.zeros BUFFER_LENGTH /\
  counter after_commit = 0 /\
  ignore_inputs after_commit = false /\
  In (WaitResult false) evs /\
  (forall inputs : list (Msg * bool),
      length inputs <= 29 ->
      exists self'', run cos_sample sin_sample after_commit inputs = Some (self'', []) /\
                     counter self'' <= 29) /\
  (forall inputs : list (Msg * bool),
      length inputs = BUFFER_LENGTH ->
      Forall (fun i => msg_is_valid (fst i) = true) inputs ->
      exists self'' meds,
        run cos_sample sin_sample after_commit inputs = Some (self'', []) /\
        push_all (map (fun i => msg_angle (fst i)) inputs) [] FILTER_LENGTH
        = Some (meds, angle self'') /\
        buf self'' = rev meds).
Proof.
  intros v msg full evs.
  split; [vm_compute; reflexivity |].
  split; [vm_compute; reflexivity |].
  apply (C7_reset_after_commit cos_sample sin_sample full msg false
           after_commit evs (goal_point cos_sample sin_sample 90)).
  - vm_compute. reflexivity.
  - simpl. auto.
Defined.

Lemma C8_invalid_witness :
  AudioCallback cos_sample sin_sample after_commit (mkMsg (F64.of_int 5) false) true
  = Some (after_commit, []).
Proof.
  apply (C8_invalid_sample_discarded cos_sample sin_sample
           after_commit (mkMsg (F64.of_int 5) false) true).
  - reflexivity.
  - reflexivity.
Defined.



Lemma C10_flag_witness :
  let valid := mkMsg (F64.of_int 90) true in
  let ls := handled valid ++ concat (repeat (handled valid) 31) ++ [Deliver valid] in
  exists s,
    exec cos_sample sin_sample System_init ls = Next s /\
    lock_held s = true /\
    ignore_inputs (follower s) = lock_held s /\
    (forall i s', step cos_sample sin_sample s (Acquire i) = Next s' ->
                  ignore_inputs (follower s) = false) /\
    (forall l s', step cos_sample sin_sample s l = Next s' -> lock_held s' = false ->
                  ignore_inputs (follower s') = false).
Proof.
  intros valid ls.
  exists (state_after cos_sample sin_sample ls).
  split; [vm_compute; reflexivity |].
  split; [vm_compute; reflexivity |].
  apply (C10_flag_clear_at_entry_and_exit cos_sample sin_sample ls
           (state_after cos_sample sin_sample ls)).
  vm_compute. reflexivity.
Defined.

Lemma X16_invalid_transparent_witness :
  let valid := (mkMsg (F64.of_int 90) true, true) in
  run cos_sample sin_sample after_commit
      [(mkMsg (F64.of_int 7) false, true); valid; (mkMsg F64.nan false, true)]
  = run cos_sample sin_sample after_commit [valid].
Proof.
  intros valid.
  apply (X16_invalid_messages_transparent cos_sample sin_sample after_commit
           [(mkMsg (F64.of_int 7) false, true); valid; (mkMsg F64.nan false, true)]).
  reflexivity.
Defined.

Lemma X17_actuator_result_witness :
  observe (run cos_sample sin_sample Follower_init
               (repeat (mkMsg (F64.of_int 90) true, true) 40))
  = observe (run cos_sample sin_sample Follower_init
                 (repeat (mkMsg (F64.of_int 90) true, false) 40)).
Proof.
  apply (X17_actuator_result_unused cos_sample sin_sample Follower_init
           (repeat (mkMsg (F64.of_int 90) true, true) 40)
           (repeat (mkMsg (F64.of_int 90) true, false) 40)).
  reflexivity.
Defined.

Lemma X18_constant_stream_witness :
  let v := F64.dyadic (-179) (-1) in
  Np.astype_int v = (-89)%Z /\
  (run cos_sample sin_sample Follower_init
       ((mkMsg (F64.of_int 5) false, true)
          :: repeat (mkMsg v true, true) 30 ++ [(mkMsg v true, false)])
   = Some (after_commit, is_commit cos_sample sin_sample (Np.astype_int v) false) /\
   run cos_sample sin_sample after_commit
       (repeat (mkMsg v true, true) 30 ++ [(mkMsg v true, false)])
   = Some (after_commit, is_commit cos_sample sin_sample (Np.astype_int v) false)).
Proof.
  intros v. split; [reflexivity |].
  apply (X18_constant_stream_commits_to_its_angle cos_sample sin_sample
           v (mkMsg (F64.of_int 5) false, true)
           (repeat (mkMsg v true, true) 30)
           (mkMsg v true) false).
  - reflexivity.
  - vm_compute. reflexivity.
  - reflexivity.
  - repeat constructor.
  - reflexivity.
  - reflexivity.
Defined.

Lemma X19_serialized_witness :
  let valid := mkMsg (F64.of_int 90) true in
  let other := mkMsg (F64.of_int 42) true in
  let ls := [Deliver other; Deliver valid; Acquire 1; Acquire 0]
              ++ concat (repeat (handled valid) 30) ++ [Deliver other] in
  let s := state_after cos_sample sin_sample ls in
  exec cos_sample sin_sample System_init ls = Next s /\
  lock_held s = true /\
  waiting s = [other] /\
  exists done : list (Msg * bool),
    Permutation (delivered ls)
                (map fst done ++ waiting (settle cos_sample sin_sample false s)) /\
    run cos_sample sin_sample Follower_init done
    = Some (follower (settle cos_sample sin_sample false s),
            trace (settle cos_sample sin_sample false s)) /\
    lock_held (settle cos_sample sin_sample false s) = false.
Proof.
  intros valid other ls s.
  split; [vm_compute; reflexivity |].
  split; [vm_compute; reflexivity |].
  split; [vm_compute; reflexivity |].
  apply (X19_callbacks_are_serialized cos_sample sin_sample ls s false).
  vm_compute. reflexivity.
Defined.

Lemma X21_no_deadlock_witness :
  let valid := mkMsg (F64.of_int 90) true in
  let other := mkMsg (F64.of_int 42) true in
  let ls := [Deliver other; Deliver valid; Acquire 1; Acquire 0]
              ++ concat (repeat (handled valid) 30) ++ [Deliver other] in
  let s := state_after cos_sample sin_sample ls in
  exec cos_sample sin_sample System_init ls = Next s /\
  lock_held s = true /\
  (lock_held s = false ->
   forall i msg, nth_error (waiting s) i = Some msg ->
     exists s', step cos_sample sin_sample s (Acquire i) = Next s' /\
                waiting s' = remove_nth i (waiting s)) /\
  (lock_held s = true ->
   forall result,
     exists s', step cos_sample sin_sample s (ActuatorDone result) = Next s' /\
                lock_held s' = false /\ waiting s' = waiting s /\
                ignore_inputs (follower s') = false /\
                counter (follower s') = 0 /\
                angle (follower s') = [] /\
                buf (follower s') = Np.zeros BUFFER_LENGTH) /\
  (exists (ls' : list Label) (s' : System) (done : list (Msg * bool)),
      Forall (fun l => is_Deliver l = false) ls' /\
      exec cos_sample sin_sample s ls' = Next s' /\
      waiting s' = [] /\
      lock_held s' = false /\
      Permutation (delivered ls) (map fst done) /\
      run cos_sample sin_sample Follower_init done = Some (follower s', trace s')).
Proof.
  intros valid other ls s.
  split; [vm_compute; reflexivity |].
  split; [vm_compute; reflexivity |].
  apply (X21_lock_does_not_deadlock cos_sample sin_sample ls s).
  vm_compute. reflexivity.
Defined.

Lemma X22_direction_witness :
  let v := F64.dyadic 171 (-1) in
  let msg := mkMsg v true in
  let full := {| angle := repeat v 20; buf := repeat v 30; counter := 30;
                 ignore_inputs := false; initializtion := false |} in
  let target := goal_point cos_sample sin_sample 85 in
  run cos_sample sin_sample after_commit (repeat (msg, true) 30) = Some (full, []) /\
  exists (m : float) (h : list float) (f : float),
    TemporalMedian (msg_angle msg) (angle full) FILTER_LENGTH = Some (m, h) /\
    In f (m :: removelast (buf full)) /\
    target = goal_point cos_sample sin_sample (Np.astype_int f) /\
    (Np.INT64_MIN <= Np.astype_int f < 2 ^ 63)%Z.
Proof.
  intros v msg full target.
  split; [vm_compute; reflexivity |].
  apply (X22_direction_is_a_buffered_value cos_sample sin_sample full msg true
           after_commit (is_commit cos_sample sin_sample 85 true) target).
  - vm_compute. reflexivity.
  - simpl. auto.
Defined.
